(** * Categorical DQN (C51) policy: a shallow embedding of
      [tianshou/policy/modelfree/c51.py] and the properties of its
      constructor, action selection, categorical projection and loss.

    Numbers.  The program computes with floating-point tensors.  The
    embedding idealises every float as a real number ([R] of the Standard
    Library), so that [torch.log] is the real logarithm [ln] and the
    arithmetic is exact; rounding, [nan] and overflow are outside the model,
    and with them the logarithm of a nonpositive number and the mean of an
    empty tensor.  The single non-finite value the program writes on
    purpose, [-np.inf] for masked actions, is kept as the constructor
    [NegInf] of [ereal].

    Tensors are nested lists; the broadcasting rule of the tensor library is
    written out in [bcast]; ill-shaped operands and bad indices raise, which
    the embedding renders with [result].

    Effects.  The methods of the class read and write [self], draw from the
    global generator of [np.random] and (for [learn]) mutate the batch they
    are handed.  They are embedded in a state-and-error monad [M] over
    [World], the pair of the policy object and the generator's cursor;
    [learn] returns the batch as it leaves it.  The base class, the network,
    the optimiser and [sync_weight] are not part of the file: the network,
    the optimiser step and the copy of the parameters are variables of the
    development, and by their types they touch the network parameters
    only. *)

From Stdlib Require Import String.
From Stdlib Require Import Reals Lra Lia List Arith ZArith Bool.
Import ListNotations.
Local Open Scope R_scope.

Set Implicit Arguments.

(* ------------------------------------------------------------------ *)
(** ** Errors *)

Inductive error : Type :=
| AssertionError (msg : string)
| IndexError
| ValueError
| RuntimeError
| ZeroDivisionError.

Inductive result (A : Type) : Type :=
| Ok (a : A)
| Err (e : error).
Arguments Ok {A} a.
Arguments Err {A} e.

Definition is_err {A} (r : result A) : bool :=
  match r with Ok _ => false | Err _ => true end.

Definition rbind {A B} (r : result A) (k : A -> result B) : result B :=
  match r with Ok a => k a | Err e => Err e end.

Fixpoint rmapM {A B} (f : A -> result B) (l : list A) : result (list B) :=
  match l with
  | [] => Ok []
  | x :: xs => rbind (f x) (fun y => rbind (rmapM f xs) (fun ys => Ok (y :: ys)))
  end.

(* ------------------------------------------------------------------ *)
(** ** Tensors of reals *)

Abbreviation tensor1 := (list R).
Abbreviation tensor2 := (list (list R)).
Abbreviation tensor3 := (list (list (list R))).

Fixpoint Rsum (l : list R) : R :=
  match l with
  | [] => 0
  | x :: xs => x + Rsum xs
  end.

(** [Tensor.clamp(min, max)]. *)
Definition clamp (lo hi x : R) : R := Rmin (Rmax x lo) hi.

(** [torch.linspace(start, end, steps)]: [steps] points, evenly spaced,
    from [start] to [end] inclusive (library function, taken from its
    documentation). *)
Definition linspace (start stop : R) (steps : nat) : list R :=
  map (fun i => start + INR i * ((stop - start) / INR (steps - 1)))
      (seq 0 steps).

(** Sizes must agree exactly (boolean-mask indexing, element by element). *)
Fixpoint zip_strict {A B C} (e : error) (f : A -> B -> result C)
    (xs : list A) (ys : list B) : result (list C) :=
  match xs, ys with
  | [], [] => Ok []
  | x :: xs', y :: ys' =>
      rbind (f x y) (fun z =>
      rbind (zip_strict e f xs' ys') (fun zs => Ok (z :: zs)))
  | _, _ => Err e
  end.

(** The broadcasting rule along one axis: a size-1 axis is stretched to the
    other operand's size; otherwise the sizes must be equal. *)
Definition bcast {A B C} (f : A -> B -> result C)
    (xs : list A) (ys : list B) : result (list C) :=
  match xs, ys with
  | [x], _ => rmapM (f x) ys
  | _, [y] => rmapM (fun x => f x y) xs
  | _, _ => zip_strict RuntimeError f xs ys
  end.

Definition bcast1 (op : R -> R -> R) : tensor1 -> tensor1 -> result tensor1 :=
  bcast (fun a b => Ok (op a b)).
Definition bcast2 (op : R -> R -> R) : tensor2 -> tensor2 -> result tensor2 :=
  bcast (bcast1 op).
Definition bcast3 (op : R -> R -> R) : tensor3 -> tensor3 -> result tensor3 :=
  bcast (bcast2 op).

Definition map3 (f : R -> R) (t : tensor3) : tensor3 := map (map (map f)) t.

(** [t.unsqueeze(1)] on a 2-d tensor: shape [[b, n]] becomes [[b, 1, n]]. *)
Definition unsqueeze1 (t : tensor2) : tensor3 := map (fun row => [row]) t.

(** [v.view(1, -1, 1)] on a 1-d tensor: shape [[n]] becomes [[1, n, 1]]. *)
Definition view_1_n_1 (v : tensor1) : tensor3 := [map (fun z => [z]) v].

(** [t.mean()] of a 1-d tensor. *)
Definition mean (l : tensor1) : R := Rsum l / INR (length l).

Definition nth_res {A} (l : list A) (i : nat) : result A :=
  match nth_error l i with Some x => Ok x | None => Err IndexError end.

(** [l[i] = v]. *)
Fixpoint list_set {A} (l : list A) (i : nat) (v : A) : result (list A) :=
  match l, i with
  | [], _ => Err IndexError
  | _ :: xs, O => Ok (v :: xs)
  | x :: xs, S i' => rbind (list_set xs i' v) (fun xs' => Ok (x :: xs'))
  end.

(** [t[np.arange(len(a)), a, :]]: row [a[k]] of the [k]-th matrix. *)
Definition gather (t : tensor3) (a : list nat) : result tensor2 :=
  rmapM (fun ka => rbind (nth_res t (fst ka)) (fun mat => nth_res mat (snd ka)))
        (combine (seq 0 (length a)) a).

(** Floats extended with the one infinity the program writes ([-np.inf]). *)
Inductive ereal : Type :=
| NegInf
| Fin (r : R).

Definition Rltb (x y : R) : bool := if Rlt_dec x y then true else false.

Definition ereal_ltb (a b : ereal) : bool :=
  match a, b with
  | NegInf, NegInf => false
  | NegInf, Fin _ => true
  | Fin _, NegInf => false
  | Fin x, Fin y => Rltb x y
  end.

(** [argmax] / [max(...)[1]]: the index of the first maximal entry; the
    running best is replaced only by a strictly larger entry. *)
Fixpoint argmax_from {A} (ltb : A -> A -> bool) (best : A) (besti i : nat)
    (l : list A) : nat :=
  match l with
  | [] => besti
  | x :: xs =>
      if ltb best x then argmax_from ltb x i (S i) xs
      else argmax_from ltb best besti (S i) xs
  end.

Definition argmax {A} (ltb : A -> A -> bool) (e : error) (l : list A)
    : result nat :=
  match l with
  | [] => Err e
  | x :: xs => Ok (argmax_from ltb x 0%nat 1%nat xs)
  end.

(** What [q_[~mask] = -np.inf] leaves in an entry [v] whose mask flag is
    [keep]. *)
Definition fill (v : R) (keep : bool) : ereal :=
  if keep then Fin v else NegInf.

(** [q_[~mask] = -np.inf] on one row and on a matrix. *)
Definition mask_fill1 (q : tensor1) (m : list bool) : result (list ereal) :=
  zip_strict IndexError (fun v keep => Ok (fill v keep)) q m.

Definition mask_fill2 (q : tensor2) (m : list (list bool))
    : result (list (list ereal)) :=
  zip_strict IndexError mask_fill1 q m.

(** [np.isclose(a, b)] with the default tolerances. *)
Definition isclose (a b : R) : bool :=
  if Rle_dec (Rabs (a - b)) (1e-8 + 1e-5 * Rabs b) then true else false.

(* ------------------------------------------------------------------ *)
(** ** Vocabulary of the specification *)

(** The entry-wise combination of two lists of equal length. *)
Definition zipWith {A B C} (g : A -> B -> C) (xs : list A) (ys : list B)
    : list C :=
  map (fun xy => g (fst xy) (snd xy)) (combine xs ys).

(** The sum of [f i] over [i < n]. *)
Definition sum_upto (n : nat) (f : nat -> R) : R := Rsum (map f (seq 0 n)).

Definition shape2 {A} (b n : nat) (t : list (list A)) : Prop :=
  length t = b /\ Forall (fun r => length r = n) t.

Definition shape3 (b a n : nat) (t : tensor3) : Prop :=
  length t = b /\ Forall (shape2 a n) t.


(** [a] is the index of the first maximal entry of [l]. *)
Definition is_first_argmax (l : list R) (a : nat) : Prop :=
  (a < length l)%nat /\
  (forall a', (a' < length l)%nat -> nth a' l 0 <= nth a l 0) /\
  (forall a', (a' < a)%nat -> nth a' l 0 < nth a l 0).

(** The weight the projection gives to atom [z] for a target value [t]:
    [clamp(1 - |t - z| / delta_z, 0, 1)]. *)
Definition proj_coef (dz z t : R) : R := clamp 0 1 (1 - Rabs (t - z) / dz).

(** The terms of one sample before the final sum: row [j] holds, for each
    source atom [i], the mass [nd[i]] weighted by the coefficient of atom
    [sup[j]] for the target value [ts[i]]. *)
Definition terms_row (dz : R) (sup ts nd : tensor1) : tensor2 :=
  map (fun z => zipWith Rmult (map (proj_coef dz z) ts) nd) sup.

(** Action [a] is a column of the [nact] actions and, when the mask of
    sample [b] leaves some action, an action it leaves. *)
Definition valid_choice (mask : option (list (list bool))) (nact b a : nat)
    : Prop :=
  (a < nact)%nat /\
  forall m, mask = Some m ->
    (exists a', nth a' (nth b m []) false = true) ->
    nth a (nth b m []) false = true.

(** The distribution-weighted expectation [sum_j row[j] * support[j]]. *)
Definition expected_value (sup row : tensor1) : R :=
  sum_upto (length sup) (fun j => nth j row 0 * nth j sup 0).

(** The cross-entropy [- sum_j target[j] * log(curr[j])] of one sample, as
    the specification words it. *)
Definition cross_entropy_spec (n : nat) (target curr : tensor1) : R :=
  - sum_upto n (fun j => nth j target 0 * ln (nth j curr 0)).

(** The cross-entropy of one sample as the program computes it, with the
    stabiliser [1e-8] inside the logarithm. *)
Definition cross_entropy_eps (n : nat) (target curr : tensor1) : R :=
  - sum_upto n (fun j => nth j target 0 * ln (nth j curr 0 + 1e-8)).

(** The popped weight of sample [b]: [1.0] when the batch carries none. *)
Definition weight_at (w : option tensor1) (b : nat) : R :=
  match w with
  | None => 1.0
  | Some wv => nth b wv 0
  end.

(* ------------------------------------------------------------------ *)
(** ** The policy object *)

Section Model.

(** The network is an external collaborator: parameters of type [Params],
    observations of type [Array], hidden state [Hidden], the batch's [info]
    of type [InfoT]. *)
Variables Params Array Hidden InfoT : Type.

(** [batch.obs] and [batch.obs_next] are either a bare array or a nested
    batch that may carry an [obs] and a [mask] attribute. *)
Inductive Obs : Type :=
| ObsArray (x : Array)
| ObsBatch (obs : option Array) (mask : option (list (list bool))).

(** The fields set up by the base class [DQNPolicy] (its constructor is not
    part of this file; [C51Policy.__init__] calls it first). *)
Record DQNBase : Type := {
  model : Params;
  model_old : Params;
  eps : R;
  updating : bool;
  _target : bool;
  _freq : nat;
  _cnt : nat
}.

Record Policy : Type := {
  base : DQNBase;
  _num_atoms : Z;
  _v_min : R;
  _v_max : R;
  support : tensor1;
  delta_z : R
}.

(** [C51Policy.__init__]; [super_init] is what [super().__init__(...)]
    did: returned the initialised base object or raised. *)
Definition __init__ (super_init : result DQNBase)
    (num_atoms : Z) (v_min v_max : R) : result Policy :=
  rbind super_init (fun b =>
  if negb (1 <? num_atoms)%Z then
    Err (AssertionError "num_atoms should be greater than 1")
  else if Rlt_dec v_min v_max then
    Ok {| base := b;
          _num_atoms := num_atoms;
          _v_min := v_min;
          _v_max := v_max;
          support := linspace v_min v_max (Z.to_nat num_atoms);
          delta_z := (v_max - v_min) / IZR (num_atoms - 1) |}
  else
    Err (AssertionError "v_max should be larger than v_min")).



(** A sampled batch of transitions, with the keys this class reads. *)
Record Batch : Type := {
  obs : Obs;
  obs_next : Obs;
  act : list nat;
  returns : tensor2;
  weight : option tensor1;
  info : InfoT
}.

(** What [forward] returns: [Batch(logits=dist, act=act, state=h)]. *)
Record FwdOut : Type := {
  logits : tensor3;
  fwd_act : list nat;
  fwd_state : Hidden
}.

(** ** External collaborators *)

(** The network: [model(obs_, state=state, info=batch.info)] returns the
    distributions, of shape [[bsz, n_actions, num_atoms]], and the hidden
    state. *)
Variable net : Params -> Obs -> option Hidden -> InfoT -> tensor3 * Hidden.

(** The numbers [np.random.rand] yields, in the order they are drawn. *)
Variable draws : nat -> R.

(** [DQNPolicy.sync_weight] copies the online network's parameters into the
    target network: the new [model_old] from the old one and [model]. *)
Variable load_state_dict : Params -> Params -> Params.

(** [loss.backward(); optim.step()]: the new parameters of [model] for the
    loss built from the batch, the target distribution and the weights. *)
Variable optim_step : Params -> Batch -> tensor2 -> option tensor1 -> Params.

(** ** The monad of the methods *)

Record World : Type := {
  self : Policy;
  rng : nat
}.

Definition M (A : Type) : Type := World -> result (A * World).

Definition ret {A} (a : A) : M A := fun w => Ok (a, w).

Definition bind {A B} (m : M A) (k : A -> M B) : M B :=
  fun w => match m w with
           | Ok (a, w') => k a w'
           | Err e => Err e
           end.

Definition lift {A} (r : result A) : M A :=
  fun w => match r with Ok a => Ok (a, w) | Err e => Err e end.

Definition get_self : M Policy := fun w => Ok (self w, w).

Definition set_base (b : DQNBase) : M unit :=
  fun w =>
    let p := self w in
    Ok (tt, {| self := {| base := b;
                          _num_atoms := _num_atoms p;
                          _v_min := _v_min p;
                          _v_max := _v_max p;
                          support := support p;
                          delta_z := delta_z p |};
               rng := rng w |}).

(** [np.random.rand()]. *)
Definition rand : M R :=
  fun w => Ok (draws (rng w), {| self := self w; rng := S (rng w) |}).

(** [np.random.rand(n)]. *)
Fixpoint rand_vec (n : nat) : M (list R) :=
  match n with
  | O => ret []
  | S n' => bind rand (fun x => bind (rand_vec n') (fun xs => ret (x :: xs)))
  end.

Notation "x <- m ;; k" := (bind m (fun x => k))
  (at level 61, m at next level, right associativity).

(** ** [_target_q] *)


(** ** [forward] *)

Inductive ModelKey : Type := K_model | K_model_old.
Inductive InputKey : Type := K_obs | K_obs_next.

Definition getattr_model (p : Policy) (k : ModelKey) : Params :=
  match k with
  | K_model => model (base p)
  | K_model_old => model_old (base p)
  end.

Definition batch_get (b : Batch) (k : InputKey) : Obs :=
  match k with
  | K_obs => obs b
  | K_obs_next => obs_next b
  end.

(** [obs.obs if hasattr(obs, "obs") else obs]. *)
Definition obs_of (o : Obs) : Obs :=
  match o with
  | ObsBatch (Some x) _ => ObsArray x
  | _ => o
  end.

(** [obs.mask], when [hasattr(obs, "mask")]. *)
Definition mask_of (o : Obs) : option (list (list bool)) :=
  match o with
  | ObsBatch _ m => m
  | ObsArray _ => None
  end.

(** [(dist * self.support).sum(2)]. *)
Definition expectation (sup : tensor1) (dist : tensor3) : result tensor2 :=
  rmapM (rmapM (fun row =>
    rbind (bcast1 Rmult row sup) (fun r => Ok (Rsum r)))) dist.

(** Lines 92-96: with a mask, the masked entries of [q] are overwritten by
    [-np.inf] and the action is the row-wise [argmax] of the result. *)
Definition mask_greedy (mask : option (list (list bool))) (q : tensor2)
    (act : list nat) : result (list nat) :=
  match mask with
  | Some msk =>
      rbind (mask_fill2 q msk) (fun q_ =>
      rmapM (argmax ereal_ltb ValueError) q_)
  | None => Ok act
  end.

(** Lines 101-104: the random scores [v] drawn for sample [i], masked when
    there is a mask, and their [argmax]. *)
Definition random_choice (mask : option (list (list bool))) (i : nat)
    (v : tensor1) : result nat :=
  rbind (match mask with
         | Some m => rbind (nth_res m i) (fun mi => mask_fill1 v mi)
         | None => Ok (map Fin v)
         end)
        (fun q_ => argmax ereal_ltb ValueError q_).

(** The loop [for i in range(len(q))], lines 99-104. *)
Fixpoint explore (mask : option (list (list bool))) (q : tensor2)
    (idx : list nat) (act : list nat) : M (list nat) :=
  match idx with
  | [] => ret act
  | i :: rest =>
      p <- get_self ;;
      u <- rand ;;
      act' <- (if Rltb u (eps (base p)) then
                 qi <- lift (nth_res q i) ;;
                 v <- rand_vec (length qi) ;;
                 a <- lift (random_choice mask i v) ;;
                 lift (list_set act i a)
               else ret act) ;;
      explore mask q rest act'
  end.

Definition forward (batch : Batch) (state : option Hidden)
    (mk : ModelKey) (ik : InputKey) : M FwdOut :=
  p <- get_self ;;
  let m := getattr_model p mk in
  let o := batch_get batch ik in
  let obs_ := obs_of o in
  let (dist, h) := net m obs_ state (info batch) in
  q <- lift (expectation (support p) dist) ;;
  act0 <- lift (rmapM (argmax Rltb RuntimeError) q) ;;
  act1 <- lift (mask_greedy (mask_of o) q act0) ;;
  act2 <- (if negb (updating (base p)) && negb (isclose (eps (base p)) 0)
           then explore (mask_of o) q (seq 0 (length q)) act1
           else ret act1) ;;
  ret {| logits := dist; fwd_act := act2; fwd_state := h |}.

(** ** [_target_dist] *)

(** Lines 108-123: the local [target_dist], of shape
    [[bsz, num_atoms, num_atoms]], before the final [.sum(-1)]. *)
Definition target_dist_terms (batch : Batch) : M tensor3 :=
  p <- get_self ;;
  an <- (if _target (base p) then
           r1 <- forward batch None K_model K_obs_next ;;
           r2 <- forward batch None K_model_old K_obs_next ;;
           ret (fwd_act r1, logits r2)
         else
           next_b <- forward batch None K_model K_obs_next ;;
           ret (fwd_act next_b, logits next_b)) ;;
  next_dist <- lift (gather (snd an) (fst an)) ;;
  let target_support :=
    map (map (clamp (_v_min p) (_v_max p))) (returns batch) in
  d <- lift (bcast3 Rminus (unsqueeze1 target_support)
                           (view_1_n_1 (support p))) ;;
  let c := map3 (clamp 0 1)
             (map3 (fun x => 1 - x)
                (map3 (fun x => x / delta_z p) (map3 Rabs d))) in
  lift (bcast3 Rmult c (unsqueeze1 next_dist)).

(** Line 124: [return target_dist.sum(-1)]. *)
Definition _target_dist (batch : Batch) : M tensor2 :=
  target_dist <- target_dist_terms batch ;;
  ret (map (map Rsum) target_dist).

(** ** [learn] *)

(** [self.sync_weight()]. *)
Definition sync_weight : M unit :=
  p <- get_self ;;
  let b := base p in
  set_base {| model := model b;
              model_old := load_state_dict (model_old b) (model b);
              eps := eps b;
              updating := updating b;
              _target := _target b;
              _freq := _freq b;
              _cnt := _cnt b |}.

(** [batch.pop("weight", 1.0)]: the value, and the batch without the key. *)
Definition pop_weight (b : Batch) : option tensor1 * Batch :=
  (weight b,
   {| obs := obs b; obs_next := obs_next b; act := act b;
      returns := returns b; weight := None; info := info b |}).

(** [batch.weight = v]. *)
Definition set_weight (b : Batch) (v : tensor1) : Batch :=
  {| obs := obs b; obs_next := obs_next b; act := act b;
     returns := returns b; weight := Some v; info := info b |}.

(** [cross_entropy * weight], the default weight being the scalar [1.0]. *)
Definition times_weight (ce : tensor1) (w : option tensor1) : result tensor1 :=
  match w with
  | None => Ok (map (fun c => c * 1.0) ce)
  | Some wv => bcast1 Rmult ce wv
  end.

(** Lines 127-128: [if self._target and self._cnt % self._freq == 0]. *)
Definition maybe_sync : M unit :=
  p <- get_self ;;
  if _target (base p) then
    if (_freq (base p) =? 0)%nat then lift (Err ZeroDivisionError)
    else if (_cnt (base p) mod _freq (base p) =? 0)%nat then sync_weight
    else ret tt
  else ret tt.

Definition learn (batch : Batch) : M (Batch * R) :=
  _ <- maybe_sync ;;
  target_dist <- _target_dist batch ;;
  let (w, batch1) := pop_weight batch in
  r <- forward batch1 None K_model K_obs ;;
  curr_dist <- lift (gather (logits r) (act batch1)) ;;
  prod <- lift (bcast2 Rmult target_dist
                  (map (map (fun x => ln (x + 1e-8))) curr_dist)) ;;
  let cross_entropy := map Ropp (map Rsum prod) in
  wce <- lift (times_weight cross_entropy w) ;;
  let loss := mean wce in
  let batch2 := set_weight batch1 cross_entropy in
  p1 <- get_self ;;
  let b1 := base p1 in
  _ <- set_base {| model := optim_step (model b1) batch1 target_dist w;
                   model_old := model_old b1;
                   eps := eps b1;
                   updating := updating b1;
                   _target := _target b1;
                   _freq := _freq b1;
                   _cnt := _cnt b1 |} ;;
  p2 <- get_self ;;
  let b2 := base p2 in
  _ <- set_base {| model := model b2;
                   model_old := model_old b2;
                   eps := eps b2;
                   updating := updating b2;
                   _target := _target b2;
                   _freq := _freq b2;
                   _cnt := _cnt b2 + 1 |} ;;
  ret (batch2, loss).

(** ** Vocabulary of the specification, over the policy *)

(** The configuration established by the constructor. *)
Definition policy_inv (p : Policy) : Prop :=
  (1 < _num_atoms p)%Z /\
  _v_min p < _v_max p /\
  support p = linspace (_v_min p) (_v_max p) (Z.to_nat (_num_atoms p)) /\
  delta_z p = (_v_max p - _v_min p) / IZR (_num_atoms p - 1).

(** The network yields, whatever its parameters, [nact >= 1] rows of [n]
    entries for each of the [bsz] samples of [batch[ik]], and the mask, if
    any, has one flag per sample and action. *)
Definition well_shaped (n : nat) (batch : Batch) (ik : InputKey)
    (bsz nact : nat) : Prop :=
  (0 < nact)%nat /\
  (forall theta,
     shape3 bsz nact n
       (fst (net theta (obs_of (batch_get batch ik)) None (info batch)))) /\
  (forall m, mask_of (batch_get batch ik) = Some m -> shape2 bsz nact m).

(** What [_target_dist] needs of a batch of [bsz] samples: well-shaped
    network outputs on [obs_next] and one return per sample and atom. *)
Definition target_ready (p : Policy) (batch : Batch) (bsz nact : nat) : Prop :=
  well_shaped (length (support p)) batch K_obs_next bsz nact /\
  shape2 bsz (length (support p)) (returns batch).

(** What [learn] needs in addition: at least one sample, a positive update
    frequency when there is a target network, well-shaped outputs on [obs],
    one taken action per sample and, if the batch carries weights, one per
    sample. *)
Definition learn_ready (p : Policy) (batch : Batch) (bsz nact : nat) : Prop :=
  (0 < bsz)%nat /\
  (_target (base p) = true -> _freq (base p) <> 0%nat) /\
  target_ready p batch bsz nact /\
  well_shaped (length (support p)) batch K_obs bsz nact /\
  length (act batch) = bsz /\
  (forall b, (b < bsz)%nat -> (nth b (act batch) 0 < nact)%nat) /\
  (forall wv, weight batch = Some wv -> length wv = bsz).

(** [nd] is the next-state distribution of the action selected by [forward]
    on [obs_next] (taken from the target network when there is one), and
    [w'] the world after these calls. *)
Definition selected_next_dist (batch : Batch) (w : World) (nd : tensor2)
    (w' : World) : Prop :=
  exists r1 w1,
    forward batch None K_model K_obs_next w = Ok (r1, w1) /\
    if _target (base (self w)) then
      exists r2,
        forward batch None K_model_old K_obs_next w1 = Ok (r2, w') /\
        gather (logits r2) (fwd_act r1) = Ok nd
    else
      w' = w1 /\ gather (logits r1) (fwd_act r1) = Ok nd.

(** The C51 projection as the specification writes it: entry [[b, j]] is
    [sum_i clamp(1 - |T[b,i] - z[j]| / delta_z, 0, 1) * next_dist[b,i]]
    with [T[b,i] = clamp(returns[b,i], v_min, v_max)]. *)
Definition projection_spec (p : Policy) (ret nd : tensor2) (b j : nat) : R :=
  sum_upto (length (support p)) (fun i =>
    clamp 0 1
      (1 - Rabs (clamp (_v_min p) (_v_max p) (nth i (nth b ret []) 0)
                 - nth j (support p) 0) / delta_z p)
    * nth i (nth b nd []) 0).

End Model.

(* ------------------------------------------------------------------ *)
(** ** Further vocabulary *)

(** The actions of lines 90-96 of [forward], before the exploration loop:
    the row-wise [argmax] of the expectations [q], of the masked ones when
    there is a mask. *)
Definition greedy_actions (sup : tensor1) (mask : option (list (list bool)))
    (dist : tensor3) (acts : list nat) : Prop :=
  exists q act0,
    expectation sup dist = Ok q /\
    rmapM (argmax Rltb RuntimeError) q = Ok act0 /\
    mask_greedy mask q act0 = Ok acts.

(** [self._target and self._cnt % self._freq == 0]: the target network is
    due for synchronisation. *)
Definition sync_due {Params : Type} (p : Policy Params) : bool :=
  _target (base p) && (_cnt (base p) mod _freq (base p) =? 0)%nat.

(* ------------------------------------------------------------------ *)
(** ** A concrete policy and concrete batches *)

(** One sample, two actions, two atoms; every action has the uniform
    distribution. *)
Definition ex_dist : tensor3 := [[[1/2; 1/2]; [1/2; 1/2]]].

Definition ex_net (theta : unit) (o : Obs unit) (st : option unit)
    (i : unit) : tensor3 * unit :=
  (ex_dist, tt).

Definition ex_draws (k : nat) : R := 1/4.

Definition ex_load (old new : unit) : unit := new.

Definition ex_optim (theta : unit) (b : Batch unit unit) (td : tensor2)
    (w : option tensor1) : unit :=
  theta.

(** A policy in its update phase, without target network. *)
Definition ex_base : DQNBase unit :=
  {| model := tt; model_old := tt; eps := 0; updating := true;
     _target := false; _freq := 0; _cnt := 0 |}.

(** A policy that explores: [eps = 1/2] outside the update phase. *)
Definition ex_base_explore : DQNBase unit :=
  {| model := tt; model_old := tt; eps := 1/2; updating := false;
     _target := false; _freq := 0; _cnt := 0 |}.

(** The object [C51Policy(..., num_atoms=2, v_min=0, v_max=1)]. *)
Definition ex_policy_of (b : DQNBase unit) : Policy unit :=
  {| base := b; _num_atoms := 2; _v_min := 0; _v_max := 1;
     support := linspace 0 1 2; delta_z := (1 - 0) / IZR (2 - 1) |}.

Definition ex_world : World unit := {| self := ex_policy_of ex_base; rng := 0 |}.

Definition ex_world_explore : World unit :=
  {| self := ex_policy_of ex_base_explore; rng := 0 |}.

(** A batch from a prioritised buffer: the sample has weight [2]. *)
Definition ex_batch : Batch unit unit :=
  {| obs := ObsArray tt; obs_next := ObsArray tt; act := [0%nat];
     returns := [[0; 1]]; weight := Some [2]; info := tt |}.

(** The same batch from a plain buffer: no weight. *)
Definition ex_batch_plain : Batch unit unit :=
  {| obs := ObsArray tt; obs_next := ObsArray tt; act := [0%nat];
     returns := [[0; 1]]; weight := None; info := tt |}.

(** A batch whose observations mask the first action. *)
Definition ex_mask : list (list bool) := [[false; true]].

Definition ex_batch_masked : Batch unit unit :=
  {| obs := ObsBatch (Some tt) (Some ex_mask);
     obs_next := ObsBatch (Some tt) (Some ex_mask); act := [1%nat];
     returns := [[0; 1]]; weight := None; info := tt |}.

(** A policy that explores rarely: [eps = 1/8], below every number that
    [ex_draws] yields. *)
Definition ex_base_timid : DQNBase unit :=
  {| model := tt; model_old := tt; eps := 1/8; updating := false;
     _target := false; _freq := 0; _cnt := 0 |}.

Definition ex_world_timid : World unit :=
  {| self := ex_policy_of ex_base_timid; rng := 0 |}.

(** A policy with a target network that is synchronised at every step. *)
Definition ex_base_target : DQNBase unit :=
  {| model := tt; model_old := tt; eps := 0; updating := true;
     _target := true; _freq := 1; _cnt := 0 |}.

Definition ex_world_target : World unit :=
  {| self := ex_policy_of ex_base_target; rng := 0 |}.


(** A batch with one return between the atoms and one beyond [v_max]. *)
Definition ex_batch_mid : Batch unit unit :=
  {| obs := ObsArray tt; obs_next := ObsArray tt; act := [0%nat];
     returns := [[1/4; 3]]; weight := None; info := tt |}.

(** A batch whose mask leaves no action. *)
Definition ex_batch_all_masked : Batch unit unit :=
  {| obs := ObsBatch (Some tt) (Some [[false; false]]);
     obs_next := ObsBatch (Some tt) (Some [[false; false]]);
     act := [0%nat]; returns := [[0; 1]]; weight := None; info := tt |}.

(** A batch whose mask has one flag for two actions. *)
Definition ex_batch_bad_mask : Batch unit unit :=
  {| obs := ObsBatch (Some tt) (Some [[true]]);
     obs_next := ObsBatch (Some tt) (Some [[true]]);
     act := [0%nat]; returns := [[0; 1]]; weight := None; info := tt |}.

(** A batch with three returns per sample for two atoms. *)
Definition ex_batch_wide : Batch unit unit :=
  {| obs := ObsArray tt; obs_next := ObsArray tt; act := [0%nat];
     returns := [[0; 1; 2]]; weight := None; info := tt |}.

(** A batch whose taken action is not one of the two actions. *)
Definition ex_batch_bad_act : Batch unit unit :=
  {| obs := ObsArray tt; obs_next := ObsArray tt; act := [2%nat];
     returns := [[0; 1]]; weight := None; info := tt |}.

(** A network with three atoms per distribution. *)
Definition ex_net_wide (theta : unit) (o : Obs unit) (st : option unit)
    (i : unit) : tensor3 * unit :=
  ([[[1/3; 1/3; 1/3]]], tt).

(* ------------------------------------------------------------------ *)
Unset Implicit Arguments.

(** * Properties *)

(** Decides the comparisons of real constants a concrete run meets. *)
Ltac decide_Rlt :=
  repeat match goal with
         | |- context [Rlt_dec ?a ?b] => destruct (Rlt_dec a b); try lra
         | |- context [Rle_dec ?a ?b] => destruct (Rle_dec a b); try lra
         end.


(** ** Small runs of the tensor operations *)

Example argmax_first_of_ties :
  argmax Rltb ValueError [1; 3; 3; 2] = Ok 1%nat.
Proof. unfold argmax, argmax_from, Rltb. decide_Rlt. reflexivity. Qed.

Example argmax_all_masked :
  argmax ereal_ltb ValueError [NegInf; NegInf] = Ok 0%nat.
Proof. reflexivity. Qed.

Example linspace_thirds : linspace 0 1 3 = [0; 1/2; 1].
Proof. unfold linspace. simpl. repeat (f_equal; try lra). Qed.


(** ** Lists, results and broadcasting *)

Lemma rmapM_ok {A B} (f : A -> result B) (g : A -> B) (l : list A) :
  (forall x, In x l -> f x = Ok (g x)) -> rmapM f l = Ok (map g l).
Proof.
  induction l as [|x xs IH]; intros H; simpl; [reflexivity|].
  rewrite (H x (or_introl eq_refl)); simpl.
  rewrite IH by (intros y Hy; apply H; right; exact Hy).
  reflexivity.
Qed.

Lemma zip_strict_ok {A B C} e (f : A -> B -> result C) (g : A -> B -> C) :
  forall xs ys,
    length xs = length ys ->
    (forall x y, In (x, y) (combine xs ys) -> f x y = Ok (g x y)) ->
    zip_strict e f xs ys = Ok (zipWith g xs ys).
Proof.
  induction xs as [|x xs IH]; intros [|y ys] Hlen H; simpl in *;
    try discriminate; [reflexivity|].
  rewrite (H x y (or_introl eq_refl)); simpl.
  rewrite (IH ys) by (auto; lia). reflexivity.
Qed.

Lemma bcast_left1 {A B C} (f : A -> B -> result C) x ys :
  bcast f [x] ys = rmapM (f x) ys.
Proof. reflexivity. Qed.

Lemma bcast_right1 {A B C} (f : A -> B -> result C) xs y :
  bcast f xs [y] = rmapM (fun x => f x y) xs.
Proof. destruct xs as [|x [|x' xs]]; reflexivity. Qed.

Lemma bcast_same {A B C} (f : A -> B -> result C) (g : A -> B -> C) xs ys :
  length xs = length ys ->
  (forall x y, In (x, y) (combine xs ys) -> f x y = Ok (g x y)) ->
  bcast f xs ys = Ok (zipWith g xs ys).
Proof.
  intros Hlen H.
  destruct xs as [|x [|x' xs]]; destruct ys as [|y [|y' ys]];
    try discriminate; try reflexivity.
  - simpl. rewrite (H x y (or_introl eq_refl)). reflexivity.
  - unfold bcast. apply zip_strict_ok; assumption.
Qed.

Lemma zipWith_length {A B C} (g : A -> B -> C) xs ys :
  length xs = length ys -> length (zipWith g xs ys) = length xs.
Proof.
  intros H. unfold zipWith. rewrite length_map, length_combine. lia.
Qed.

Lemma nth_zipWith {A B C} (g : A -> B -> C) xs ys k da db dc :
  (k < length xs)%nat -> length xs = length ys ->
  nth k (zipWith g xs ys) dc = g (nth k xs da) (nth k ys db).
Proof.
  intros Hk Hlen. unfold zipWith.
  rewrite (nth_indep _ dc (g da db))
    by (rewrite length_map, length_combine; lia).
  rewrite (map_nth (fun xy => g (fst xy) (snd xy)) (combine xs ys) (da, db)).
  rewrite combine_nth by assumption. reflexivity.
Qed.

Lemma In_combine_nth {A B} (xs : list A) (ys : list B) x y da db :
  In (x, y) (combine xs ys) ->
  exists k, (k < length xs)%nat /\ (k < length ys)%nat /\
            nth k xs da = x /\ nth k ys db = y.
Proof.
  revert ys. induction xs as [|a xs IH]; intros [|b ys] H; simpl in *;
    try contradiction.
  destruct H as [H|H].
  - inversion H; subst. exists 0%nat. repeat split; lia.
  - destruct (IH ys H) as (k & ? & ? & ? & ?).
    exists (S k). repeat split; try lia; assumption.
Qed.

Lemma nth_map_lt {A B} (f : A -> B) l k d d' :
  (k < length l)%nat -> nth k (map f l) d' = f (nth k l d).
Proof.
  intros Hk. rewrite (nth_indep _ d' (f d)) by (rewrite length_map; exact Hk).
  apply map_nth.
Qed.

Lemma map_nth_seq0 {A} (l : list A) d :
  map (fun i => nth i l d) (seq 0 (length l)) = l.
Proof.
  induction l as [|x xs IH]; simpl; [reflexivity|].
  rewrite <- seq_shift, map_map. simpl. rewrite IH. reflexivity.
Qed.

Lemma Rsum_sum_upto (l : list R) :
  Rsum l = sum_upto (length l) (fun i => nth i l 0).
Proof. unfold sum_upto. rewrite map_nth_seq0. reflexivity. Qed.

Lemma sum_upto_ext n f g :
  (forall i, (i < n)%nat -> f i = g i) -> sum_upto n f = sum_upto n g.
Proof.
  intros H. unfold sum_upto. f_equal. apply map_ext_in.
  intros i Hi. apply in_seq in Hi. apply H. lia.
Qed.


Lemma Rsum_app l1 l2 : Rsum (l1 ++ l2) = Rsum l1 + Rsum l2.
Proof. induction l1 as [|x xs IH]; simpl; [lra|]. rewrite IH. lra. Qed.

Lemma Rsum_zipWith_mult (xs ys : list R) :
  length xs = length ys ->
  Rsum (zipWith Rmult xs ys)
  = sum_upto (length xs) (fun i => nth i xs 0 * nth i ys 0).
Proof.
  intros Hlen. rewrite Rsum_sum_upto, zipWith_length by assumption.
  apply sum_upto_ext. intros i Hi.
  apply (nth_zipWith Rmult xs ys i 0 0 0); assumption.
Qed.

(** ** [argmax]: the first maximal entry *)

Section Argmax.

Variable A : Type.
Variable ltb : A -> A -> bool.
Hypothesis ltb_asym : forall a b, ltb a b = true -> ltb b a = false.
Hypothesis ltb_ge_trans :
  forall a b c, ltb a b = false -> ltb b c = false -> ltb a c = false.

Lemma ltb_irrefl a : ltb a a = false.
Proof.
  destruct (ltb a a) eqn:E; [|reflexivity].
  rewrite (ltb_asym _ _ E) in E. discriminate.
Qed.

Lemma ltb_le_lt a b c : ltb b a = false -> ltb b c = true -> ltb a c = true.
Proof.
  intros Hab Hbc. destruct (ltb a c) eqn:E; [reflexivity|].
  rewrite (ltb_ge_trans _ _ _ Hab E) in Hbc. discriminate.
Qed.

(** The scan of [argmax_from], with [pre] the entries already seen. *)
Lemma argmax_from_scan (d : A) :
  forall xs pre best besti,
    (besti < length pre)%nat ->
    nth besti pre d = best ->
    (forall k, (k < length pre)%nat -> ltb best (nth k pre d) = false) ->
    (forall k, (k < besti)%nat -> ltb (nth k pre d) best = true) ->
    let r := argmax_from ltb best besti (length pre) xs in
    let l := pre ++ xs in
    (r < length l)%nat /\
    (forall k, (k < length l)%nat -> ltb (nth r l d) (nth k l d) = false) /\
    (forall k, (k < r)%nat -> ltb (nth k l d) (nth r l d) = true).
Proof.
  induction xs as [|x xs IH]; intros pre best besti Hb Hnth Hmax Hfirst; simpl.
  - rewrite app_nil_r, Hnth. repeat split; auto.
  - assert (Hlen : length (pre ++ [x]) = S (length pre))
      by (rewrite length_app; simpl; lia).
    assert (Hl : pre ++ x :: xs = (pre ++ [x]) ++ xs)
      by (rewrite <- app_assoc; reflexivity).
    destruct (ltb best x) eqn:E.
    + rewrite Hl, <- Hlen. apply IH.
      * rewrite Hlen. lia.
      * rewrite app_nth2, Nat.sub_diag by lia. reflexivity.
      * intros k Hk. rewrite Hlen in Hk.
        destruct (Nat.eq_dec k (length pre)) as [->|Hne].
        -- rewrite app_nth2, Nat.sub_diag by lia. apply ltb_irrefl.
        -- rewrite app_nth1 by lia.
           apply (ltb_ge_trans x best); [apply ltb_asym; exact E|].
           apply Hmax. lia.
      * intros k Hk. rewrite app_nth1 by lia.
        apply (ltb_le_lt _ best); [apply Hmax; lia | exact E].
    + rewrite Hl, <- Hlen. apply IH.
      * rewrite Hlen. lia.
      * rewrite app_nth1 by lia. exact Hnth.
      * intros k Hk. rewrite Hlen in Hk.
        destruct (Nat.eq_dec k (length pre)) as [->|Hne].
        -- rewrite app_nth2, Nat.sub_diag by lia. exact E.
        -- rewrite app_nth1 by lia. apply Hmax. lia.
      * intros k Hk. rewrite app_nth1 by lia. apply Hfirst. exact Hk.
Qed.

Lemma argmax_first_max (d : A) e l r :
  argmax ltb e l = Ok r ->
  (r < length l)%nat /\
  (forall k, (k < length l)%nat -> ltb (nth r l d) (nth k l d) = false) /\
  (forall k, (k < r)%nat -> ltb (nth k l d) (nth r l d) = true).
Proof.
  destruct l as [|x xs]; simpl; [discriminate|].
  intros H. inversion H; subst; clear H.
  apply (argmax_from_scan d xs [x] x 0%nat); simpl.
  - lia.
  - reflexivity.
  - intros k Hk. assert (k = 0)%nat as -> by lia. apply ltb_irrefl.
  - intros k Hk. lia.
Qed.

Lemma argmax_nonempty e l :
  l <> [] -> exists r, argmax ltb e l = Ok r.
Proof. destruct l; [congruence|]. intros _. eexists. reflexivity. Qed.

End Argmax.

Lemma Rltb_asym a b : Rltb a b = true -> Rltb b a = false.
Proof. unfold Rltb. repeat destruct Rlt_dec; intros; try reflexivity; try discriminate; lra. Qed.

Lemma Rltb_ge_trans a b c :
  Rltb a b = false -> Rltb b c = false -> Rltb a c = false.
Proof. unfold Rltb. repeat destruct Rlt_dec; intros; try reflexivity; try discriminate; lra. Qed.

Lemma ereal_ltb_asym a b : ereal_ltb a b = true -> ereal_ltb b a = false.
Proof. destruct a, b; simpl; auto using Rltb_asym. Qed.

Lemma ereal_ltb_ge_trans a b c :
  ereal_ltb a b = false -> ereal_ltb b c = false -> ereal_ltb a c = false.
Proof.
  destruct a, b, c; simpl; auto; try discriminate. apply Rltb_ge_trans.
Qed.

Lemma argmax_R_spec e l r :
  argmax Rltb e l = Ok r -> is_first_argmax l r.
Proof.
  intros H.
  destruct (argmax_first_max R Rltb Rltb_asym Rltb_ge_trans 0 e l r H)
    as (Hr & Hmax & Hfirst).
  repeat split.
  - exact Hr.
  - intros a' Ha'. specialize (Hmax a' Ha'). unfold Rltb in Hmax.
    destruct Rlt_dec; [discriminate | lra].
  - intros a' Ha'. specialize (Hfirst a' Ha'). unfold Rltb in Hfirst.
    destruct Rlt_dec; [assumption | discriminate].
Qed.

Lemma rmapM_inv {A B} (f : A -> result B) dx dy :
  forall l ys, rmapM f l = Ok ys ->
    length ys = length l /\
    forall k, (k < length l)%nat -> f (nth k l dx) = Ok (nth k ys dy).
Proof.
  induction l as [|x xs IH]; simpl; intros ys H.
  - inversion H; subst. split; [reflexivity | intros k Hk; lia].
  - destruct (f x) as [y|e] eqn:Ex; simpl in H; [|discriminate].
    destruct (rmapM f xs) as [ys'|e] eqn:Exs; simpl in H; [|discriminate].
    inversion H; subst; clear H.
    destruct (IH ys' eq_refl) as [Hlen Hnth].
    split; [simpl; lia|].
    intros [|k] Hk; simpl; [exact Ex | apply Hnth; lia].
Qed.

Lemma rmapM_total {A B} (f : A -> result B) :
  forall l, (forall x, In x l -> exists y, f x = Ok y) ->
    exists ys, rmapM f l = Ok ys.
Proof.
  induction l as [|x xs IH]; simpl; intros H; [eexists; reflexivity|].
  destruct (H x (or_introl eq_refl)) as [y ->]. simpl.
  destruct IH as [ys ->]; [intros; apply H; right; assumption|].
  simpl. eexists. reflexivity.
Qed.

Lemma list_set_ok {A} (d : A) :
  forall l i v, (i < length l)%nat ->
    exists l', list_set l i v = Ok l' /\ length l' = length l /\
      nth i l' d = v /\
      forall k, k <> i -> nth k l' d = nth k l d.
Proof.
  induction l as [|x xs IH]; intros i v Hi; simpl in Hi; [lia|].
  destruct i as [|i]; simpl.
  - eexists. repeat split. intros [|k] Hk; [congruence | reflexivity].
  - destruct (IH i v) as (l' & -> & Hlen & Hnth & Hoth); [lia|]. simpl.
    eexists. repeat split; simpl; auto.
    intros [|k] Hk; [reflexivity | apply Hoth; congruence].
Qed.

Lemma shape2_nth {A} b n (t : list (list A)) k :
  shape2 b n t -> (k < b)%nat -> length (nth k t []) = n.
Proof.
  intros [Hlen Hall] Hk. rewrite Forall_forall in Hall.
  apply Hall, nth_In. lia.
Qed.

Lemma shape3_nth b a n t k :
  shape3 b a n t -> (k < b)%nat -> shape2 a n (nth k t []).
Proof.
  intros [Hlen Hall] Hk. rewrite Forall_forall in Hall.
  apply Hall, nth_In. lia.
Qed.

Lemma shape2_map {A B} (f : list A -> list B) b n m (t : list (list A)) :
  shape2 b n t -> (forall r, length r = n -> length (f r) = m) ->
  shape2 b m (map f t).
Proof.
  intros [Hlen Hall] Hf. split; [rewrite length_map; exact Hlen|].
  apply Forall_map. eapply Forall_impl; [|exact Hall]. exact Hf.
Qed.

(** ** The expectation and the greedy choice *)

Lemma dot_expected_value sup row :
  length row = length sup ->
  rbind (bcast1 Rmult row sup) (fun r => Ok (Rsum r))
  = Ok (expected_value sup row).
Proof.
  intros Hlen. unfold bcast1.
  rewrite (bcast_same _ Rmult) by (auto; intros; reflexivity).
  simpl. rewrite Rsum_zipWith_mult by assumption.
  unfold expected_value. rewrite Hlen. reflexivity.
Qed.

Lemma expectation_ok sup dist bsz nact :
  shape3 bsz nact (length sup) dist ->
  expectation sup dist = Ok (map (map (expected_value sup)) dist).
Proof.
  intros [_ Hall]. unfold expectation. rewrite Forall_forall in Hall.
  apply rmapM_ok. intros mat Hmat.
  destruct (Hall mat Hmat) as [_ Hrows]. rewrite Forall_forall in Hrows.
  apply rmapM_ok. intros row Hrow.
  apply dot_expected_value. apply Hrows. exact Hrow.
Qed.

Lemma expectation_shape sup dist bsz nact :
  shape3 bsz nact (length sup) dist ->
  shape2 bsz nact (map (map (expected_value sup)) dist).
Proof.
  intros [Hlen Hall]. split; [rewrite length_map; exact Hlen|].
  apply Forall_map. eapply Forall_impl; [|exact Hall].
  intros mat [Hm _]. rewrite length_map. exact Hm.
Qed.

Lemma greedy_ok {A} (ltb : A -> A -> bool) e bsz nact (q : list (list A)) :
  shape2 bsz nact q -> (0 < nact)%nat ->
  exists acts, rmapM (argmax ltb e) q = Ok acts /\ length acts = bsz /\
    forall b, (b < bsz)%nat -> argmax ltb e (nth b q []) = Ok (nth b acts 0%nat).
Proof.
  intros Hq Hn.
  destruct (rmapM_total (argmax ltb e) q) as [acts Hacts].
  - intros row Hrow. apply argmax_nonempty.
    destruct Hq as [_ Hall]. rewrite Forall_forall in Hall.
    specialize (Hall row Hrow). destruct row; simpl in *; [lia | congruence].
  - exists acts. split; [exact Hacts|].
    destruct (rmapM_inv (argmax ltb e) [] 0%nat q acts Hacts) as [Hlen Hnth].
    destruct Hq as [Hb _]. split; [lia|].
    intros b Hb'. apply Hnth. lia.
Qed.

(** ** Masked rows *)

Lemma mask_fill1_ok q m :
  length q = length m -> mask_fill1 q m = Ok (zipWith fill q m).
Proof.
  intros H. unfold mask_fill1. apply zip_strict_ok; [exact H|].
  intros; reflexivity.
Qed.

Lemma mask_fill2_ok bsz nact q m :
  shape2 bsz nact q -> shape2 bsz nact m ->
  mask_fill2 q m = Ok (zipWith (zipWith fill) q m).
Proof.
  intros Hq Hm. unfold mask_fill2. apply zip_strict_ok.
  - destruct Hq as [Hq _], Hm as [Hm _].
    transitivity bsz; [exact Hq | symmetry; exact Hm].
  - intros x y Hin.
    destruct (In_combine_nth q m x y [] [] Hin) as (k & Hk1 & Hk2 & <- & <-).
    assert (Hkb : (k < bsz)%nat)
      by (destruct Hq as [Hq1 _]; rewrite <- Hq1; exact Hk1).
    apply mask_fill1_ok.
    rewrite (shape2_nth bsz nact q k Hq Hkb), (shape2_nth bsz nact m k Hm Hkb).
    reflexivity.
Qed.

(** The first maximal entry of a masked row is an unmasked action, as soon
    as one action is unmasked. *)
Lemma argmax_masked_valid e v m a :
  length v = length m ->
  argmax ereal_ltb e (zipWith fill v m) = Ok a ->
  (a < length m)%nat /\
  ((exists a', nth a' m false = true) -> nth a m false = true).
Proof.
  intros Hlen H.
  destruct (argmax_first_max ereal ereal_ltb ereal_ltb_asym
              ereal_ltb_ge_trans NegInf e _ a H) as (Ha & Hmax & _).
  rewrite zipWith_length in Ha, Hmax by assumption.
  split; [lia|].
  intros [a' Ha'].
  assert (Ha'len : (a' < length m)%nat).
  { destruct (Nat.lt_ge_cases a' (length m)) as [|Hge]; [assumption|].
    rewrite nth_overflow in Ha' by assumption. discriminate. }
  specialize (Hmax a' ltac:(lia)).
  rewrite (nth_zipWith fill v m a 0 false NegInf) in Hmax by lia.
  rewrite (nth_zipWith fill v m a' 0 false NegInf) in Hmax by lia.
  rewrite Ha' in Hmax. simpl in Hmax.
  destruct (nth a m false); [reflexivity|]. simpl in Hmax. discriminate.
Qed.

Lemma nth_res_ok {A} (l : list A) i d :
  (i < length l)%nat -> nth_res l i = Ok (nth i l d).
Proof.
  intros Hi. unfold nth_res.
  rewrite (nth_error_nth' l d Hi). reflexivity.
Qed.

(** ** Gathering the selected rows *)

Lemma gather_inv dist a nd :
  gather dist a = Ok nd ->
  length nd = length a /\
  forall b, (b < length a)%nat ->
    (b < length dist)%nat /\
    (nth b a 0 < length (nth b dist []))%nat /\
    nth b nd [] = nth (nth b a 0%nat) (nth b dist []) [].
Proof.
  unfold gather. intros H.
  destruct (rmapM_inv _ (0%nat, 0%nat) [] _ _ H) as [Hlen Hnth].
  rewrite length_combine, length_seq, Nat.min_id in Hlen, Hnth.
  split; [exact Hlen|].
  intros b Hb. specialize (Hnth b Hb).
  rewrite combine_nth in Hnth by (rewrite length_seq; reflexivity).
  rewrite seq_nth in Hnth by exact Hb. simpl in Hnth.
  unfold nth_res in Hnth.
  destruct (nth_error dist b) as [mat|] eqn:E1; simpl in Hnth; [|discriminate].
  destruct (nth_error mat (nth b a 0%nat)) as [row|] eqn:E2; [|discriminate].
  inversion Hnth; subst; clear Hnth.
  assert (Hb1 : (b < length dist)%nat)
    by (apply nth_error_Some; congruence).
  rewrite (nth_error_nth dist b [] E1).
  assert (Hb2 : (nth b a 0 < length mat)%nat)
    by (apply nth_error_Some; congruence).
  rewrite (nth_error_nth mat _ [] E2). repeat split; assumption.
Qed.

Lemma gather_total dist a bsz nact n :
  shape3 bsz nact n dist -> length a = bsz ->
  (forall b, (b < bsz)%nat -> (nth b a 0 < nact)%nat) ->
  exists nd, gather dist a = Ok nd /\ shape2 bsz n nd.
Proof.
  intros Hdist Hlen Hlt.
  destruct (rmapM_total
              (fun ka => rbind (nth_res dist (fst ka))
                               (fun mat => nth_res mat (snd ka)))
              (combine (seq 0 (length a)) a)) as [nd Hnd].
  - intros [k ak] Hin.
    destruct (In_combine_nth _ _ k ak 0%nat 0%nat Hin) as (j & Hj1 & Hj2 & Ek & Ea).
    rewrite length_seq in Hj1. rewrite seq_nth in Ek by exact Hj1.
    simpl in Ek. subst k ak. simpl.
    assert (Hjb : (j < bsz)%nat) by lia.
    rewrite (nth_res_ok dist j []) by (destruct Hdist as [-> _]; exact Hjb).
    simpl.
    destruct (shape3_nth bsz nact n dist j Hdist Hjb) as [Hm _].
    rewrite (nth_res_ok _ _ []) by (rewrite Hm; apply Hlt; exact Hjb).
    eexists. reflexivity.
  - exists nd. split; [exact Hnd|].
    destruct (gather_inv dist a nd Hnd) as [Hl Hn].
    split; [lia|].
    apply Forall_forall. intros row Hrow.
    destruct (In_nth nd row [] Hrow) as (b & Hb & <-).
    destruct (Hn b ltac:(lia)) as (_ & _ & ->).
    apply (shape2_nth nact n (nth b dist []) (nth b a 0%nat)).
    + apply (shape3_nth bsz nact n dist b Hdist). lia.
    + apply Hlt. lia.
Qed.

(** ** The projection, in closed form *)

Lemma rmapM_map {A B C} (f : B -> result C) (h : A -> B) l :
  rmapM f (map h l) = rmapM (fun x => f (h x)) l.
Proof.
  induction l as [|x xs IH]; simpl; [reflexivity|]. rewrite IH. reflexivity.
Qed.

Lemma sub_broadcast (ts : tensor2) (sup : tensor1) :
  bcast3 Rminus (unsqueeze1 ts) (view_1_n_1 sup)
  = Ok (map (fun row => map (fun z => map (fun t => t - z) row) sup) ts).
Proof.
  unfold bcast3, view_1_n_1, unsqueeze1.
  rewrite bcast_right1, rmapM_map.
  apply rmapM_ok. intros row _.
  unfold bcast2. rewrite bcast_left1, rmapM_map.
  apply rmapM_ok. intros z _.
  unfold bcast1. rewrite bcast_right1.
  apply rmapM_ok. intros t _. reflexivity.
Qed.

Lemma coef_chain dz (ts : tensor2) (sup : tensor1) :
  map3 (clamp 0 1)
    (map3 (fun x => 1 - x)
       (map3 (fun x => x / dz)
          (map3 Rabs
             (map (fun row => map (fun z => map (fun t => t - z) row) sup) ts))))
  = map (fun row => map (fun z => map (proj_coef dz z) row) sup) ts.
Proof.
  unfold map3. repeat rewrite map_map.
  apply map_ext. intros row. repeat rewrite map_map.
  apply map_ext. intros z. repeat rewrite map_map.
  apply map_ext. intros t. reflexivity.
Qed.

Lemma mul_broadcast dz sup (ts nd : tensor2) bsz n :
  shape2 bsz n ts -> shape2 bsz n nd ->
  exists tt,
    bcast3 Rmult
      (map (fun row => map (fun z => map (proj_coef dz z) row) sup) ts)
      (unsqueeze1 nd) = Ok tt /\
    length tt = bsz /\
    forall b, (b < bsz)%nat ->
      nth b tt [] = terms_row dz sup (nth b ts []) (nth b nd []).
Proof.
  intros Hts Hnd.
  set (c := map (fun row => map (fun z => map (proj_coef dz z) row) sup) ts).
  assert (Hlen : length c = length (unsqueeze1 nd)).
  { unfold c, unsqueeze1. rewrite !length_map.
    destruct Hts as [-> _], Hnd as [-> _]. reflexivity. }
  exists (zipWith (fun x y => map (fun cj => zipWith Rmult cj (hd [] y)) x)
                  c (unsqueeze1 nd)).
  split; [|split].
  - unfold bcast3. apply bcast_same; [exact Hlen|].
    intros x y Hin.
    destruct (In_combine_nth _ _ x y [] [] Hin) as (b & Hb1 & Hb2 & <- & <-).
    unfold c in Hb1. rewrite length_map in Hb1.
    assert (Hb : (b < bsz)%nat) by (destruct Hts as [<- _]; exact Hb1).
    unfold unsqueeze1.
    rewrite (nth_map_lt _ nd b []) by (destruct Hnd as [-> _]; exact Hb).
    simpl hd.
    unfold bcast2. rewrite bcast_right1.
    apply rmapM_ok. intros cj Hcj.
    unfold bcast1. apply bcast_same; [|intros; reflexivity].
    unfold c in Hcj.
    rewrite (nth_map_lt _ ts b []) in Hcj by exact Hb1.
    apply in_map_iff in Hcj.
    destruct Hcj as (z & <- & _). rewrite length_map.
    rewrite (shape2_nth bsz n ts b Hts Hb), (shape2_nth bsz n nd b Hnd Hb).
    reflexivity.
  - rewrite zipWith_length by exact Hlen. unfold c. rewrite length_map.
    destruct Hts as [-> _]. reflexivity.
  - intros b Hb.
    rewrite (nth_zipWith _ c (unsqueeze1 nd) b [] [] [])
      by (try exact Hlen; unfold c; rewrite length_map;
          destruct Hts as [-> _]; exact Hb).
    unfold c, unsqueeze1.
    rewrite (nth_map_lt _ nd b []) by (destruct Hnd as [-> _]; exact Hb).
    simpl hd.
    rewrite (nth_map_lt _ ts b []) by (destruct Hts as [-> _]; exact Hb).
    unfold terms_row. rewrite map_map. reflexivity.
Qed.

(** ** The methods *)

Section Methods.

Variables Params Array Hidden InfoT : Type.
Variable net : Params -> Obs Array -> option Hidden -> InfoT -> tensor3 * Hidden.
Variable draws : nat -> R.
Variable load_state_dict : Params -> Params -> Params.
Variable optim_step :
  Params -> Batch Array InfoT -> tensor2 -> option tensor1 -> Params.

Local Abbreviation World := (World Params).
Local Abbreviation Policy := (Policy Params).
Local Abbreviation Batch := (Batch Array InfoT).

Lemma bind_run {A B} (m : M Params A) (k : A -> M Params B) w a w' :
  m w = Ok (a, w') -> bind m k w = k a w'.
Proof. intros H. unfold bind. rewrite H. reflexivity. Qed.

Lemma bind_lift_ok {A B} (a : A) (k : A -> M Params B) w :
  bind (lift (Ok a)) k w = k a w.
Proof. reflexivity. Qed.

Lemma rand_vec_run n :
  forall w : World, exists v w',
    rand_vec draws n w = Ok (v, w') /\ length v = n /\ self w' = self w.
Proof.
  induction n as [|n IH]; intros w; simpl.
  - exists [], w. repeat split.
  - unfold bind at 1. unfold rand at 1.
    destruct (IH {| self := self w; rng := S (rng w) |}) as (v & w' & Hv & Hlen & Hs).
    unfold bind at 1. rewrite Hv. unfold ret.
    exists (draws (rng w) :: v), w'. repeat split; simpl; auto.
Qed.

Lemma random_choice_ok mask bsz nact i v :
  (0 < nact)%nat ->
  (forall m, mask = Some m -> shape2 bsz nact m) ->
  (i < bsz)%nat -> length v = nact ->
  exists a, random_choice mask i v = Ok a /\ valid_choice mask nact i a.
Proof.
  intros Hn Hm Hi Hv. unfold random_choice. destruct mask as [m|].
  - pose proof (Hm m eq_refl) as Hshape.
    assert (Hmi : (i < length m)%nat) by (destruct Hshape as [-> _]; exact Hi).
    assert (Hlen : length v = length (nth i m []))
      by (rewrite (shape2_nth bsz nact m i Hshape Hi); exact Hv).
    rewrite (nth_res_ok m i [] Hmi). simpl.
    rewrite (mask_fill1_ok v (nth i m []) Hlen). simpl.
    destruct (argmax_nonempty ereal ereal_ltb ValueError
                (zipWith fill v (nth i m []))) as [a Ha].
    { intros E. apply (f_equal (@length _)) in E.
      rewrite zipWith_length in E by exact Hlen. simpl in E. lia. }
    exists a. split; [exact Ha|].
    destruct (argmax_masked_valid _ v (nth i m []) a Hlen Ha) as [Hlt Hval].
    split.
    + rewrite <- Hv, Hlen. exact Hlt.
    + intros m' E. inversion E; subst m'. exact Hval.
  - simpl.
    destruct (argmax_nonempty ereal ereal_ltb ValueError (map Fin v))
      as [a Ha].
    { destruct v; simpl in *; [lia | congruence]. }
    exists a. split; [exact Ha|].
    destruct (argmax_first_max ereal ereal_ltb ereal_ltb_asym
                ereal_ltb_ge_trans NegInf _ _ a Ha) as (Hlt & _).
    rewrite length_map in Hlt. split; [lia | intros m E; discriminate].
Qed.

Lemma zipWith_shape2 {A B C} (g : A -> B -> C) bsz n
    (xs : list (list A)) (ys : list (list B)) :
  shape2 bsz n xs -> shape2 bsz n ys ->
  shape2 bsz n (zipWith (zipWith g) xs ys).
Proof.
  intros [Hx1 Hx2] [Hy1 Hy2]. split.
  - rewrite zipWith_length; [exact Hx1|].
    transitivity bsz; [exact Hx1 | symmetry; exact Hy1].
  - apply Forall_forall. intros row Hrow. unfold zipWith in Hrow at 1.
    apply in_map_iff in Hrow. destruct Hrow as ([x y] & <- & Hin).
    simpl. rewrite Forall_forall in Hx2, Hy2.
    pose proof (Hx2 x (in_combine_l _ _ _ _ Hin)) as Hx.
    pose proof (Hy2 y (in_combine_r _ _ _ _ Hin)) as Hy.
    rewrite zipWith_length; [exact Hx|].
    transitivity n; [exact Hx | symmetry; exact Hy].
Qed.

Lemma mask_greedy_ok mask q act0 bsz nact :
  (0 < nact)%nat ->
  shape2 bsz nact q ->
  (forall m, mask = Some m -> shape2 bsz nact m) ->
  length act0 = bsz ->
  (forall b, (b < bsz)%nat -> (nth b act0 0 < nact)%nat) ->
  exists act1,
    mask_greedy mask q act0 = Ok act1 /\ length act1 = bsz /\
    (forall b, (b < bsz)%nat -> valid_choice mask nact b (nth b act1 0%nat)) /\
    (mask = None -> act1 = act0).
Proof.
  intros Hn Hq Hm Hlen0 Hlt0. unfold mask_greedy. destruct mask as [msk|].
  - pose proof (Hm msk eq_refl) as Hmsk.
    rewrite (mask_fill2_ok bsz nact q msk Hq Hmsk). simpl.
    destruct (greedy_ok ereal_ltb ValueError bsz nact _
                (zipWith_shape2 fill bsz nact q msk Hq Hmsk) Hn)
      as (act1 & Hact1 & Hlen1 & Hnth1).
    exists act1. split; [exact Hact1|]. split; [exact Hlen1|].
    split; [|discriminate].
    intros b Hb. specialize (Hnth1 b Hb).
    assert (Hbq : (b < length q)%nat) by (destruct Hq as [-> _]; exact Hb).
    assert (Hqm : length q = length msk).
    { destruct Hq as [Hq1 _], Hmsk as [Hm1 _].
      transitivity bsz; [exact Hq1 | symmetry; exact Hm1]. }
    rewrite (nth_zipWith (zipWith fill) q msk b [] [] [] Hbq Hqm) in Hnth1.
    assert (Hl : length (nth b q []) = length (nth b msk [])).
    { rewrite (shape2_nth bsz nact q b Hq Hb),
              (shape2_nth bsz nact msk b Hmsk Hb). reflexivity. }
    destruct (argmax_masked_valid _ _ _ _ Hl Hnth1) as [Hlt Hval].
    split.
    + rewrite (shape2_nth bsz nact msk b Hmsk Hb) in Hlt. exact Hlt.
    + intros m' E. inversion E; subst m'. exact Hval.
  - exists act0. split; [reflexivity|]. split; [exact Hlen0|].
    split; [|reflexivity].
    intros b Hb. split; [apply Hlt0; exact Hb | intros m E; discriminate].
Qed.

Lemma explore_inv mask q bsz nact :
  shape2 bsz nact q -> (0 < nact)%nat ->
  (forall m, mask = Some m -> shape2 bsz nact m) ->
  forall idx act (w : World),
    (forall i, In i idx -> (i < bsz)%nat) ->
    length act = bsz ->
    (forall b, (b < bsz)%nat -> valid_choice mask nact b (nth b act 0%nat)) ->
    exists act' w',
      explore draws mask q idx act w = Ok (act', w') /\
      self w' = self w /\ length act' = bsz /\
      forall b, (b < bsz)%nat -> valid_choice mask nact b (nth b act' 0%nat).
Proof.
  intros Hq Hn Hm.
  induction idx as [|i rest IH]; intros act w Hidx Hlen Hact; simpl.
  - exists act, w. unfold ret.
    split; [reflexivity|]. split; [reflexivity|]. split; assumption.
  - assert (Hi : (i < bsz)%nat) by (apply Hidx; left; reflexivity).
    assert (Hrest : forall j, In j rest -> (j < bsz)%nat)
      by (intros; apply Hidx; right; assumption).
    unfold bind, lift, ret, get_self, rand. cbv beta iota.
    set (w1 := {| self := self w; rng := S (rng w) |}).
    destruct (Rltb (draws (rng w)) (eps (base (self w)))).
    + assert (Hqi : (i < length q)%nat) by (destruct Hq as [-> _]; exact Hi).
      rewrite (nth_res_ok q i [] Hqi). cbv beta iota.
      destruct (rand_vec_run (length (nth i q [])) w1)
        as (v & w2 & Hv & Hvlen & Hs2).
      rewrite Hv. cbv beta iota.
      rewrite (shape2_nth bsz nact q i Hq Hi) in Hvlen.
      destruct (random_choice_ok mask bsz nact i v Hn Hm Hi Hvlen)
        as (a & Ha & Hvalid).
      rewrite Ha. cbv beta iota.
      destruct (list_set_ok 0%nat act i a ltac:(lia))
        as (act' & Hset & Hlen' & Hnth & Hoth).
      rewrite Hset. cbv beta iota.
      destruct (IH act' w2 Hrest) as (act'' & w' & Hrun & Hs & Hl & HP').
      * lia.
      * intros b Hb. destruct (Nat.eq_dec b i) as [->|Hne].
        -- rewrite Hnth. exact Hvalid.
        -- rewrite Hoth by exact Hne. apply Hact. exact Hb.
      * exists act'', w'. split; [exact Hrun|].
        split; [rewrite Hs, Hs2; reflexivity|]. split; assumption.
    + destruct (IH act w1 Hrest Hlen Hact)
        as (act'' & w' & Hrun & Hs & Hl & HP').
      exists act'', w'. split; [exact Hrun|].
      split; [exact Hs|]. split; assumption.
Qed.

Lemma forward_run (w : World) (batch : Batch) state mk ik bsz nact dist h :
  net (getattr_model (self w) mk) (obs_of (batch_get batch ik)) state
      (info batch) = (dist, h) ->
  (0 < nact)%nat ->
  shape3 bsz nact (length (support (self w))) dist ->
  (forall m, mask_of (batch_get batch ik) = Some m -> shape2 bsz nact m) ->
  exists acts w',
    forward net draws batch state mk ik w
    = Ok ({| logits := dist; fwd_act := acts; fwd_state := h |}, w')
    /\ self w' = self w
    /\ length acts = bsz
    /\ (forall b, (b < bsz)%nat ->
          valid_choice (mask_of (batch_get batch ik)) nact b (nth b acts 0%nat))
    /\ (mask_of (batch_get batch ik) = None ->
        updating (base (self w)) = true
        \/ isclose (eps (base (self w))) 0 = true ->
        w' = w /\
        forall b, (b < bsz)%nat ->
          is_first_argmax
            (map (expected_value (support (self w))) (nth b dist []))
            (nth b acts 0%nat)).
Proof.
  intros Enet Hn Hdist Hmask.
  unfold forward, bind, lift, ret, get_self. cbv beta iota.
  rewrite Enet. cbv beta iota.
  set (p := self w) in *. set (o := batch_get batch ik) in *.
  rewrite (expectation_ok (support p) dist bsz nact Hdist). cbv beta iota.
  pose proof (expectation_shape (support p) dist bsz nact Hdist) as Hq.
  set (q := map (map (expected_value (support p))) dist) in *.
  destruct (greedy_ok Rltb RuntimeError bsz nact q Hq Hn)
    as (act0 & Hact0 & Hlen0 & Hnth0).
  rewrite Hact0. cbv beta iota.
  assert (Hgreedy : forall b, (b < bsz)%nat ->
            is_first_argmax (map (expected_value (support p)) (nth b dist []))
                            (nth b act0 0%nat)).
  { intros b Hb. specialize (Hnth0 b Hb). apply argmax_R_spec in Hnth0.
    unfold q in Hnth0.
    rewrite (nth_map_lt _ dist b []) in Hnth0
      by (destruct Hdist as [-> _]; exact Hb).
    exact Hnth0. }
  assert (Hlt0 : forall b, (b < bsz)%nat -> (nth b act0 0 < nact)%nat).
  { intros b Hb. destruct (Hgreedy b Hb) as [Hlt _].
    rewrite length_map in Hlt.
    destruct (shape3_nth bsz nact _ dist b Hdist Hb) as [Hl _].
    apply (Nat.lt_le_trans _ _ _ Hlt). apply Nat.eq_le_incl. exact Hl. }
  destruct (mask_greedy_ok (mask_of o) q act0 bsz nact Hn Hq Hmask Hlen0 Hlt0)
    as (act1 & Hact1 & Hlen1 & Hval1 & Hnone).
  rewrite Hact1. cbv beta iota.
  destruct (negb (updating (base p)) && negb (isclose (eps (base p)) 0)) eqn:Ex.
  - destruct (explore_inv (mask_of o) q bsz nact Hq Hn Hmask
                (seq 0 (length q)) act1 w)
      as (act2 & w' & Hrun2 & Hself & Hlen2 & Hval2).
    + intros i Hi. apply in_seq in Hi. destruct Hq as [Hq1 _]. lia.
    + exact Hlen1.
    + exact Hval1.
    + rewrite Hrun2. exists act2, w'.
      split; [reflexivity|]. split; [exact Hself|]. split; [exact Hlen2|].
      split; [exact Hval2|].
      intros _ [Hu|Hc]; [rewrite Hu in Ex | rewrite Hc in Ex];
        simpl in Ex; rewrite ?andb_false_r in Ex; discriminate.
  - exists act1, w.
    split; [reflexivity|]. split; [reflexivity|]. split; [exact Hlen1|].
    split; [exact Hval1|].
    intros Hno _. rewrite (Hnone Hno). split; [reflexivity | exact Hgreedy].
Qed.

Lemma forward_ws_run (w : World) (batch : Batch) mk ik bsz nact :
  well_shaped net (length (support (self w))) batch ik bsz nact ->
  exists r w',
    forward net draws batch None mk ik w = Ok (r, w')
    /\ logits r
       = fst (net (getattr_model (self w) mk) (obs_of (batch_get batch ik))
                  None (info batch))
    /\ self w' = self w /\ length (fwd_act r) = bsz
    /\ forall b, (b < bsz)%nat -> (nth b (fwd_act r) 0 < nact)%nat.
Proof.
  intros (Hn & Hshape & Hmask).
  destruct (forward_run w batch None mk ik bsz nact _ _
              (surjective_pairing _) Hn (Hshape _) Hmask)
    as (acts & w' & Hrun & Hself & Hlen & Hval & _).
  eexists _, w'. split; [exact Hrun|]. simpl.
  split; [reflexivity|]. split; [exact Hself|]. split; [exact Hlen|].
  intros b Hb. apply (Hval b Hb).
Qed.

Lemma target_dist_terms_run (w : World) (batch : Batch) bsz nact :
  well_shaped net (length (support (self w))) batch K_obs_next bsz nact ->
  shape2 bsz (length (support (self w))) (returns batch) ->
  exists nd w' tt,
    selected_next_dist net draws batch w nd w' /\
    shape2 bsz (length (support (self w))) nd /\
    self w' = self w /\
    target_dist_terms net draws batch w = Ok (tt, w') /\
    length tt = bsz /\
    forall b, (b < bsz)%nat ->
      nth b tt []
      = terms_row (delta_z (self w)) (support (self w))
          (map (clamp (_v_min (self w)) (_v_max (self w)))
               (nth b (returns batch) []))
          (nth b nd []).
Proof.
  intros Hws Hret.
  destruct (forward_ws_run w batch K_model K_obs_next bsz nact Hws)
    as (r1 & w1 & Hf1 & Hlog1 & Hs1 & Hl1 & Hlt1).
  set (p := self w) in *.
  assert (Hts : shape2 bsz (length (support p))
                  (map (map (clamp (_v_min p) (_v_max p))) (returns batch))).
  { apply (shape2_map _ bsz (length (support p))); [exact Hret|].
    intros r Hr. rewrite length_map. exact Hr. }
  unfold target_dist_terms, selected_next_dist, bind, lift, ret, get_self.
  cbv beta iota. fold p.
  destruct (_target (base p)) eqn:Et.
  - assert (Hws1 : well_shaped net (length (support (self w1))) batch
                     K_obs_next bsz nact) by (rewrite Hs1; exact Hws).
    destruct (forward_ws_run w1 batch K_model_old K_obs_next bsz nact Hws1)
      as (r2 & w2 & Hf2 & Hlog2 & Hs2 & Hl2 & Hlt2).
    destruct (gather_total (logits r2) (fwd_act r1) bsz nact
                (length (support p)))
      as (nd & Hg & Hnd);
      [rewrite Hlog2; apply Hws | exact Hl1 | exact Hlt1 |].
    destruct (mul_broadcast (delta_z p) (support p) _ nd bsz _ Hts Hnd)
      as (tt & Htt & Hlen & Hnth).
    exists nd, w2, tt.
    split; [|split; [exact Hnd|split; [rewrite Hs2; exact Hs1|]]].
    + exists r1, w1. split; [exact Hf1|].
      exists r2. split; [exact Hf2 | exact Hg].
    + rewrite Hf1. cbv beta iota. rewrite Hf2. cbv beta iota.
      simpl fst. simpl snd. rewrite Hg. cbv beta iota.
      rewrite sub_broadcast. cbv beta iota. rewrite coef_chain.
      rewrite Htt. split; [reflexivity|]. split; [exact Hlen|].
      intros b Hb. rewrite (Hnth b Hb).
      rewrite (nth_map_lt _ (returns batch) b [])
        by (destruct Hret as [-> _]; exact Hb).
      reflexivity.
  - destruct (gather_total (logits r1) (fwd_act r1) bsz nact
                (length (support p)))
      as (nd & Hg & Hnd);
      [rewrite Hlog1; apply Hws | exact Hl1 | exact Hlt1 |].
    destruct (mul_broadcast (delta_z p) (support p) _ nd bsz _ Hts Hnd)
      as (tt & Htt & Hlen & Hnth).
    exists nd, w1, tt.
    split; [|split; [exact Hnd|split; [exact Hs1|]]].
    + exists r1, w1. split; [exact Hf1|]. split; [reflexivity | exact Hg].
    + rewrite Hf1. cbv beta iota.
      simpl fst. simpl snd. rewrite Hg. cbv beta iota.
      rewrite sub_broadcast. cbv beta iota. rewrite coef_chain.
      rewrite Htt. split; [reflexivity|]. split; [exact Hlen|].
      intros b Hb. rewrite (Hnth b Hb).
      rewrite (nth_map_lt _ (returns batch) b [])
        by (destruct Hret as [-> _]; exact Hb).
      reflexivity.
Qed.

(** [_target_dist]: the terms, summed over the source atoms. *)
Lemma target_dist_run (w : World) (batch : Batch) bsz nact :
  well_shaped net (length (support (self w))) batch K_obs_next bsz nact ->
  shape2 bsz (length (support (self w))) (returns batch) ->
  exists nd w' td,
    selected_next_dist net draws batch w nd w' /\
    shape2 bsz (length (support (self w))) nd /\
    self w' = self w /\
    _target_dist net draws batch w = Ok (td, w') /\
    shape2 bsz (length (support (self w))) td /\
    forall b, (b < bsz)%nat ->
      nth b td []
      = map Rsum
          (terms_row (delta_z (self w)) (support (self w))
             (map (clamp (_v_min (self w)) (_v_max (self w)))
                  (nth b (returns batch) []))
             (nth b nd [])).
Proof.
  intros Hws Hret.
  destruct (target_dist_terms_run w batch bsz nact Hws Hret)
    as (nd & w' & tt & Hsel & Hnd & Hself & Hrun & Hlen & Hnth).
  exists nd, w', (map (map Rsum) tt).
  split; [exact Hsel|]. split; [exact Hnd|]. split; [exact Hself|].
  split; [unfold _target_dist, bind, ret; rewrite Hrun; reflexivity|].
  assert (Hrow : forall b, (b < bsz)%nat ->
            nth b (map (map Rsum) tt) []
            = map Rsum
                (terms_row (delta_z (self w)) (support (self w))
                   (map (clamp (_v_min (self w)) (_v_max (self w)))
                        (nth b (returns batch) []))
                   (nth b nd []))).
  { intros b Hb. rewrite (nth_map_lt _ tt b []) by (rewrite Hlen; exact Hb).
    rewrite (Hnth b Hb). reflexivity. }
  split; [|exact Hrow].
  split; [rewrite length_map; exact Hlen|].
  apply Forall_forall. intros row Hrow'.
  destruct (In_nth _ row [] Hrow') as (b & Hb & <-).
  rewrite length_map, Hlen in Hb. rewrite (Hrow b Hb).
  unfold terms_row. rewrite !length_map. reflexivity.
Qed.

(** [forward] returns the network's output as its [logits]. *)
Lemma forward_logits (w : World) (batch : Batch) state mk ik r w' :
  forward net draws batch state mk ik w = Ok (r, w') ->
  logits r
  = fst (net (getattr_model (self w) mk) (obs_of (batch_get batch ik)) state
             (info batch)).
Proof.
  unfold forward, bind, lift, ret, get_self. cbv beta iota.
  destruct (net (getattr_model (self w) mk) (obs_of (batch_get batch ik))
                state (info batch)) as [dist h].
  destruct (expectation (support (self w)) dist) as [q|]; [|discriminate].
  destruct (rmapM (argmax Rltb RuntimeError) q) as [a0|]; [|discriminate].
  destruct (mask_greedy (mask_of (batch_get batch ik)) q a0) as [a1|];
    [|discriminate].
  match goal with
  | |- match ?m with _ => _ end = _ -> _ => destruct m as [[a2 w2]|]
  end; [|discriminate].
  intros H. inversion H. reflexivity.
Qed.

(** ** [learn] *)

Lemma maybe_sync_run (w : World) :
  (_target (base (self w)) = true -> _freq (base (self w)) <> 0%nat) ->
  exists w0,
    maybe_sync load_state_dict w = Ok (tt, w0) /\
    rng w0 = rng w /\
    support (self w0) = support (self w) /\
    delta_z (self w0) = delta_z (self w) /\
    _v_min (self w0) = _v_min (self w) /\
    _v_max (self w0) = _v_max (self w) /\
    _num_atoms (self w0) = _num_atoms (self w) /\
    _cnt (base (self w0)) = _cnt (base (self w)).
Proof.
  intros Hfreq. unfold maybe_sync, sync_weight, set_base, bind, lift, ret,
    get_self. cbv beta iota.
  destruct (_target (base (self w))) eqn:Et.
  - destruct (_freq (base (self w)) =? 0)%nat eqn:Ef.
    + apply Nat.eqb_eq in Ef. destruct (Hfreq eq_refl Ef).
    + destruct (_cnt (base (self w)) mod _freq (base (self w)) =? 0)%nat.
      * eexists. split; [reflexivity|]. simpl. repeat split.
      * exists w. repeat split.
  - exists w. repeat split.
Qed.

Lemma cross_entropy_rows n (td curr : tensor2) bsz :
  shape2 bsz n td -> shape2 bsz n curr ->
  exists prod,
    bcast2 Rmult td (map (map (fun x => ln (x + 1e-8))) curr) = Ok prod /\
    length (map Ropp (map Rsum prod)) = bsz /\
    forall b, (b < bsz)%nat ->
      nth b (map Ropp (map Rsum prod)) 0
      = cross_entropy_eps n (nth b td []) (nth b curr []).
Proof.
  intros Htd Hcurr.
  set (lc := map (map (fun x => ln (x + 1e-8))) curr).
  assert (Hlc : shape2 bsz n lc).
  { apply (shape2_map _ bsz n); [exact Hcurr|].
    intros r Hr. rewrite length_map. exact Hr. }
  assert (Hlen : length td = length lc)
    by (destruct Htd as [-> _], Hlc as [-> _]; reflexivity).
  exists (zipWith (zipWith Rmult) td lc).
  split; [|split].
  - unfold bcast2. apply bcast_same; [exact Hlen|].
    intros x y Hin.
    destruct (In_combine_nth _ _ x y [] [] Hin) as (b & Hb1 & _ & <- & <-).
    assert (Hb : (b < bsz)%nat) by (destruct Htd as [<- _]; exact Hb1).
    unfold bcast1. apply bcast_same; [|intros; reflexivity].
    rewrite (shape2_nth bsz n td b Htd Hb), (shape2_nth bsz n lc b Hlc Hb).
    reflexivity.
  - rewrite !length_map, zipWith_length by exact Hlen.
    destruct Htd as [-> _]. reflexivity.
  - intros b Hb.
    assert (Hb1 : (b < length td)%nat) by (destruct Htd as [-> _]; exact Hb).
    rewrite map_map.
    rewrite (nth_map_lt _ _ b []) by (rewrite zipWith_length; assumption).
    rewrite (nth_zipWith _ td lc b [] [] []) by assumption.
    assert (Hrow : length (nth b td []) = length (nth b lc [])).
    { rewrite (shape2_nth bsz n td b Htd Hb), (shape2_nth bsz n lc b Hlc Hb).
      reflexivity. }
    rewrite Rsum_zipWith_mult by exact Hrow.
    rewrite (shape2_nth bsz n td b Htd Hb).
    unfold cross_entropy_eps. f_equal. apply sum_upto_ext. intros j Hj.
    unfold lc.
    rewrite (nth_map_lt _ curr b [])
      by (destruct Hcurr as [-> _]; exact Hb).
    rewrite (nth_map_lt _ (nth b curr []) j 0)
      by (rewrite (shape2_nth bsz n curr b Hcurr Hb); exact Hj).
    reflexivity.
Qed.

Lemma times_weight_ok (ce : tensor1) (wt : option tensor1) bsz :
  length ce = bsz ->
  (forall wv, wt = Some wv -> length wv = bsz) ->
  exists wce,
    times_weight ce wt = Ok wce /\
    mean wce = sum_upto bsz (fun b => weight_at wt b * nth b ce 0) / INR bsz.
Proof.
  intros Hce Hwt. unfold times_weight, mean. destruct wt as [wv|].
  - pose proof (Hwt wv eq_refl) as Hwv.
    assert (Hlen : length ce = length wv) by congruence.
    exists (zipWith Rmult ce wv). split.
    + unfold bcast1. apply bcast_same; [exact Hlen | intros; reflexivity].
    + rewrite zipWith_length by exact Hlen.
      rewrite Rsum_zipWith_mult by exact Hlen. rewrite Hce. f_equal.
      apply sum_upto_ext. intros b _. simpl. lra.
  - eexists. split; [reflexivity|].
    rewrite length_map, Hce. f_equal.
    rewrite Rsum_sum_upto, length_map, Hce.
    apply sum_upto_ext. intros b Hb.
    rewrite (nth_map_lt _ ce b 0) by (rewrite Hce; exact Hb). simpl. lra.
Qed.

Lemma learn_run (w : World) (batch : Batch) bsz nact :
  learn_ready net (self w) batch bsz nact ->
  exists w0 td w1 r w2 curr ce loss w',
    maybe_sync load_state_dict w = Ok (tt, w0) /\
    _target_dist net draws batch w0 = Ok (td, w1) /\
    forward net draws (snd (pop_weight batch)) None K_model K_obs w1
    = Ok (r, w2) /\
    gather (logits r) (act batch) = Ok curr /\
    shape2 bsz (length (support (self w))) td /\
    shape2 bsz (length (support (self w))) curr /\
    length ce = bsz /\
    (forall b, (b < bsz)%nat ->
       nth b ce 0
       = cross_entropy_eps (length (support (self w)))
           (nth b td []) (nth b curr [])) /\
    learn net draws load_state_dict optim_step batch w
    = Ok ((set_weight (snd (pop_weight batch)) ce, loss), w') /\
    loss = sum_upto bsz (fun b => weight_at (weight batch) b * nth b ce 0)
           / INR bsz /\
    _cnt (base (self w')) = (_cnt (base (self w)) + 1)%nat /\
    support (self w') = support (self w) /\
    delta_z (self w') = delta_z (self w) /\
    _v_min (self w') = _v_min (self w) /\
    _v_max (self w') = _v_max (self w) /\
    _num_atoms (self w') = _num_atoms (self w).
Proof.
  intros (_ & Hfreq & (Hnext & Hret) & Hobs & Hact & Hactlt & Hwt).
  destruct (maybe_sync_run w Hfreq)
    as (w0 & Hsync & _ & Hsup0 & Hdz0 & Hmin0 & Hmax0 & Hna0 & Hcnt0).
  set (n := length (support (self w))) in *.
  assert (Hn0 : length (support (self w0)) = n) by (rewrite Hsup0; reflexivity).
  destruct (target_dist_run w0 batch bsz nact)
    as (nd & w1 & td & _ & _ & Hs1 & Htd & Htdshape & _);
    [rewrite Hn0; exact Hnext | rewrite Hn0; exact Hret |].
  rewrite Hn0 in Htdshape.
  assert (Hn1 : length (support (self w1)) = n) by (rewrite Hs1; exact Hn0).
  destruct (forward_ws_run w1 (snd (pop_weight batch)) K_model K_obs bsz nact)
    as (r & w2 & Hfwd & Hlog & Hs2 & _ & _);
    [rewrite Hn1; exact Hobs|].
  destruct (gather_total (logits r) (act batch) bsz nact n)
    as (curr & Hg & Hcurr);
    [rewrite Hlog; apply (proj1 (proj2 Hobs)) | exact Hact | exact Hactlt |].
  destruct (cross_entropy_rows n td curr bsz Htdshape Hcurr)
    as (prod & Hprod & Hcelen & Hce).
  destruct (times_weight_ok (map Ropp (map Rsum prod)) (weight batch) bsz
              Hcelen Hwt) as (wce & Hwce & Hmean).
  exists w0, td, w1, r, w2, curr, (map Ropp (map Rsum prod)), (mean wce).
  eexists.
  split; [exact Hsync|]. split; [exact Htd|]. split; [exact Hfwd|].
  split; [exact Hg|]. split; [exact Htdshape|]. split; [exact Hcurr|].
  split; [exact Hcelen|]. split; [exact Hce|].
  split.
  { unfold learn, bind. rewrite Hsync. cbv beta iota. rewrite Htd.
    cbv beta iota. unfold pop_weight at 1. cbv beta iota.
    change {| obs := obs batch; obs_next := obs_next batch; act := act batch;
              returns := returns batch; weight := None; info := info batch |}
      with (snd (pop_weight batch)).
    rewrite Hfwd. cbv beta iota. unfold lift, ret, get_self, set_base.
    change (act (snd (pop_weight batch))) with (act batch).
    rewrite Hg. cbv beta iota. rewrite Hprod. cbv beta iota.
    rewrite Hwce. cbv beta iota zeta. reflexivity. }
  split; [exact Hmean|].
  simpl. rewrite Hs2, Hs1.
  repeat split; try assumption. rewrite Hcnt0. reflexivity.
Qed.

(** The configuration the constructor established survives [learn]. *)
Lemma learn_preserves_inv (w : World) (batch : Batch) bsz nact res w' :
  policy_inv (self w) ->
  learn_ready net (self w) batch bsz nact ->
  learn net draws load_state_dict optim_step batch w = Ok (res, w') ->
  policy_inv (self w').
Proof.
  intros (H1 & H2 & H3 & H4) Hready Hlearn.
  destruct (learn_run w batch bsz nact Hready)
    as (w0 & td & w1 & r & w2 & curr & ce & loss & w'' & _ & _ & _ & _ & _
        & _ & _ & _ & Hrun & _ & _ & Hsup & Hdz & Hmin & Hmax & Hna).
  rewrite Hrun in Hlearn. inversion Hlearn; subst; clear Hlearn.
  unfold policy_inv. rewrite Hsup, Hdz, Hmin, Hmax, Hna.
  repeat split; assumption.
Qed.


End Methods.

(** ** Sums *)






(** ** The projection coefficient *)








(** ** The support grid *)

Lemma linspace_length a b n : length (linspace a b n) = n.
Proof. unfold linspace. rewrite length_map, length_seq. reflexivity. Qed.

Lemma linspace_nth a b n i :
  (i < n)%nat ->
  nth i (linspace a b n) 0 = a + INR i * ((b - a) / INR (n - 1)).
Proof.
  intros Hi. unfold linspace.
  rewrite (nth_map_lt _ (seq 0 n) i 0%nat) by (rewrite length_seq; exact Hi).
  rewrite seq_nth by exact Hi. reflexivity.
Qed.

Lemma IZR_pred_to_nat z : (1 < z)%Z -> IZR (z - 1) = INR (Z.to_nat z - 1).
Proof.
  intros Hz. rewrite INR_IZR_INZ. f_equal. lia.
Qed.

Section Grid.

Variable Params : Type.
Variable p : Policy Params.
Hypothesis Hinv : policy_inv p.

Lemma inv_length : length (support p) = Z.to_nat (_num_atoms p).
Proof.
  destruct Hinv as (_ & _ & -> & _). apply linspace_length.
Qed.

Lemma inv_atoms_ge_2 : (2 <= length (support p))%nat.
Proof. rewrite inv_length. destruct Hinv as (H & _). lia. Qed.

Lemma inv_step :
  delta_z p = (_v_max p - _v_min p) / INR (length (support p) - 1).
Proof.
  rewrite inv_length. destruct Hinv as (H & _ & _ & ->).
  rewrite IZR_pred_to_nat by exact H. reflexivity.
Qed.



Lemma inv_nth j :
  (j < length (support p))%nat ->
  nth j (support p) 0 = _v_min p + INR j * delta_z p.
Proof.
  intros Hj. rewrite inv_step.
  destruct Hinv as (_ & _ & E & _). rewrite E at 1.
  rewrite E, linspace_length in Hj.
  rewrite linspace_nth by exact Hj.
  rewrite E, linspace_length. reflexivity.
Qed.


Lemma inv_support_map :
  support p
  = map (fun j => _v_min p + INR j * delta_z p) (seq 0 (length (support p))).
Proof.
  apply (nth_ext _ _ 0 0).
  - rewrite length_map, length_seq. reflexivity.
  - intros j Hj. rewrite inv_nth by exact Hj.
    rewrite (nth_map_lt _ _ j 0%nat) by (rewrite length_seq; exact Hj).
    rewrite seq_nth by exact Hj. reflexivity.
Qed.


(** Row [j] of the terms of one sample, summed over the source atoms. *)
Lemma terms_row_entry ts nd j :
  length ts = length nd ->
  (j < length (support p))%nat ->
  nth j (map Rsum (terms_row (delta_z p) (support p) ts nd)) 0
  = sum_upto (length ts) (fun i =>
      proj_coef (delta_z p) (nth j (support p) 0) (nth i ts 0) * nth i nd 0).
Proof.
  intros Hlen Hj. unfold terms_row. rewrite map_map.
  rewrite (nth_map_lt _ (support p) j 0) by exact Hj.
  rewrite Rsum_zipWith_mult by (rewrite length_map; exact Hlen).
  rewrite length_map. apply sum_upto_ext. intros i Hi.
  rewrite (nth_map_lt _ ts i 0) by exact Hi. reflexivity.
Qed.



End Grid.

(** ** The constructor *)


(** An error of the base class's constructor is the constructor's. *)
Lemma init_propagates_super_error (Params : Type) e n vmin vmax :
  __init__ (@Err (DQNBase Params) e) n vmin vmax = Err e.
Proof. reflexivity. Qed.




Section Claims.

Variables Params Array Hidden InfoT : Type.
Variable net : Params -> Obs Array -> option Hidden -> InfoT -> tensor3 * Hidden.
Variable draws : nat -> R.
Variable load_state_dict : Params -> Params -> Params.
Variable optim_step :
  Params -> Batch Array InfoT -> tensor2 -> option tensor1 -> Params.

Local Abbreviation World := (World Params).
Local Abbreviation Batch := (Batch Array InfoT).

(** ** Action selection *)

Lemma isclose_zero x : isclose x 0 = true <-> Rabs x <= 1e-8.
Proof.
  unfold isclose. rewrite Rminus_0_r, Rabs_R0, Rmult_0_r, Rplus_0_r.
  destruct Rle_dec; split; intros; auto; discriminate.
Qed.

(** C3. Without a mask and with exploration suppressed ([updating] set, or
    [eps] close to zero), [forward] returns, for each sample, the first
    action that maximises the expectation [sum_j dist[b,a,j] * support[j]],
    and draws no random number. *)
Theorem forward_greedy_is_argmax (w : World) (batch : Batch)
    (state : option Hidden) (mk : ModelKey) (ik : InputKey) (bsz nact : nat) :
  mask_of (batch_get batch ik) = None ->
  updating (base (self w)) = true \/ isclose (eps (base (self w))) 0 = true ->
  (0 < nact)%nat ->
  shape3 bsz nact (length (support (self w)))
    (fst (net (getattr_model (self w) mk) (obs_of (batch_get batch ik)) state
              (info batch))) ->
  exists r,
    forward net draws batch state mk ik w = Ok (r, w) /\
    logits r
    = fst (net (getattr_model (self w) mk) (obs_of (batch_get batch ik)) state
               (info batch)) /\
    length (fwd_act r) = bsz /\
    forall b, (b < bsz)%nat ->
      is_first_argmax
        (map (expected_value (support (self w))) (nth b (logits r) []))
        (nth b (fwd_act r) 0%nat).
Proof.
  intros Hmask Hsup Hn Hshape.
  destruct (forward_run Params Array Hidden InfoT net draws w batch state mk ik
              bsz nact _ _ (surjective_pairing _) Hn Hshape)
    as (acts & w' & Hrun & _ & Hlen & _ & Hgreedy).
  - intros m Hm. rewrite Hmask in Hm. discriminate.
  - destruct (Hgreedy Hmask Hsup) as [-> Harg].
    eexists. split; [exact Hrun|]. simpl.
    split; [reflexivity|]. split; [exact Hlen | exact Harg].
Qed.

(** C6. With a mask, the action [forward] returns for a sample in which at
    least one action is unmasked is an unmasked action, whether it comes
    from the greedy [argmax] or from the random exploration. *)
Theorem forward_respects_mask (w : World) (batch : Batch)
    (state : option Hidden) (mk : ModelKey) (ik : InputKey) (bsz nact : nat)
    (m : list (list bool)) :
  mask_of (batch_get batch ik) = Some m ->
  shape2 bsz nact m ->
  (0 < nact)%nat ->
  shape3 bsz nact (length (support (self w)))
    (fst (net (getattr_model (self w) mk) (obs_of (batch_get batch ik)) state
              (info batch))) ->
  exists r w',
    forward net draws batch state mk ik w = Ok (r, w') /\
    length (fwd_act r) = bsz /\
    forall b, (b < bsz)%nat ->
      (exists a, nth a (nth b m []) false = true) ->
      nth (nth b (fwd_act r) 0%nat) (nth b m []) false = true.
Proof.
  intros Hmask Hm Hn Hshape.
  destruct (forward_run Params Array Hidden InfoT net draws w batch state mk ik
              bsz nact _ _ (surjective_pairing _) Hn Hshape)
    as (acts & w' & Hrun & _ & Hlen & Hval & _).
  - intros m' Hm'. rewrite Hmask in Hm'. inversion Hm'; subst. exact Hm.
  - eexists _, w'. split; [exact Hrun|]. simpl. split; [exact Hlen|].
    intros b Hb Hex. destruct (Hval b Hb) as [_ Hv].
    apply (Hv m Hmask Hex).
Qed.

(** ** The categorical projection *)

(** C1. [_target_dist] returns the projection of the clamped returns onto
    the support: entry [[b, j]] is
    [sum_i clamp(1 - |T[b,i] - z[j]| / delta_z, 0, 1) * next_dist[b,i]],
    where [next_dist[b]] is the next-state distribution of the action that
    [forward] selected on [obs_next]. *)
Theorem target_dist_is_projection (w : World) (batch : Batch)
    (bsz nact : nat) :
  target_ready net (self w) batch bsz nact ->
  exists nd w' td,
    selected_next_dist net draws batch w nd w' /\
    _target_dist net draws batch w = Ok (td, w') /\
    forall b j, (b < bsz)%nat -> (j < length (support (self w)))%nat ->
      nth j (nth b td []) 0 = projection_spec (self w) (returns batch) nd b j.
Proof.
  intros [Hws Hret].
  destruct (target_dist_run Params Array Hidden InfoT net draws w batch
              bsz nact Hws Hret)
    as (nd & w' & td & Hsel & Hnd & _ & Hrun & _ & Hrow).
  exists nd, w', td. split; [exact Hsel|]. split; [exact Hrun|].
  intros b j Hb Hj. rewrite (Hrow b Hb).
  pose proof (shape2_nth bsz _ (returns batch) b Hret Hb) as Hlr.
  pose proof (shape2_nth bsz _ nd b Hnd Hb) as Hln.
  rewrite terms_row_entry
    by (try exact Hj; rewrite length_map, Hlr, Hln; reflexivity).
  rewrite length_map, Hlr. unfold projection_spec.
  apply sum_upto_ext. intros i Hi.
  rewrite (nth_map_lt _ (nth b (returns batch) []) i 0)
    by (rewrite Hlr; exact Hi).
  reflexivity.
Qed.

(** C7. [_target_dist] leaves the policy object as it found it (support,
    [delta_z], [v_min], [v_max], [num_atoms], the parameters of both
    networks, the counter), and its result has shape
    [[batch_size, num_atoms]]. *)
Theorem target_dist_frame (w : World) (batch : Batch) (bsz nact : nat) :
  policy_inv (self w) ->
  target_ready net (self w) batch bsz nact ->
  exists td w',
    _target_dist net draws batch w = Ok (td, w') /\
    self w' = self w /\
    shape2 bsz (Z.to_nat (_num_atoms (self w))) td.
Proof.
  intros Hinv [Hws Hret].
  destruct (target_dist_run Params Array Hidden InfoT net draws w batch
              bsz nact Hws Hret)
    as (nd & w' & td & _ & _ & Hself & Hrun & Hshape & _).
  exists td, w'. split; [exact Hrun|]. split; [exact Hself|].
  rewrite <- (inv_length Params (self w) Hinv). exact Hshape.
Qed.



(** ** The loss *)

(** C2 (as the program computes it). [learn] returns the mean over the
    samples of the per-sample weight times the cross-entropy
    [- sum_j target_dist[b,j] * log(curr_dist[b,j] + 1e-8)] between the
    distribution predicted for the taken action and the projected target;
    the weight is the one popped from the batch, [1.0] when there is none. *)
Theorem learn_loss_is_weighted_mean (w : World) (batch : Batch)
    (bsz nact : nat) :
  learn_ready net (self w) batch bsz nact ->
  exists w0 td w1 r w2 curr batch' loss w',
    maybe_sync load_state_dict w = Ok (tt, w0) /\
    _target_dist net draws batch w0 = Ok (td, w1) /\
    forward net draws (snd (pop_weight batch)) None K_model K_obs w1
    = Ok (r, w2) /\
    gather (logits r) (act batch) = Ok curr /\
    learn net draws load_state_dict optim_step batch w
    = Ok ((batch', loss), w') /\
    loss = sum_upto bsz (fun b =>
             weight_at (weight batch) b
             * cross_entropy_eps (length (support (self w)))
                 (nth b td []) (nth b curr []))
           / INR bsz.
Proof.
  intros Hready.
  destruct (learn_run Params Array Hidden InfoT net draws load_state_dict
              optim_step w batch bsz nact Hready)
    as (w0 & td & w1 & r & w2 & curr & ce & loss & w' & Hsync & Htd & Hfwd
        & Hg & _ & _ & _ & Hce & Hlearn & Hloss & _).
  exists w0, td, w1, r, w2, curr, (set_weight (snd (pop_weight batch)) ce),
    loss, w'.
  repeat (split; [assumption|]).
  rewrite Hloss. f_equal. apply sum_upto_ext. intros b Hb.
  rewrite (Hce b Hb). reflexivity.
Qed.

(** C9. [learn] mutates the batch and the counter: on return the batch's
    [weight] holds the per-sample cross-entropy values (the other keys are
    untouched), and [_cnt] has grown by exactly one. *)
Theorem learn_sets_weight_and_counts (w : World) (batch : Batch)
    (bsz nact : nat) :
  learn_ready net (self w) batch bsz nact ->
  exists w0 td w1 r w2 curr batch' ce loss w',
    maybe_sync load_state_dict w = Ok (tt, w0) /\
    _target_dist net draws batch w0 = Ok (td, w1) /\
    forward net draws (snd (pop_weight batch)) None K_model K_obs w1
    = Ok (r, w2) /\
    gather (logits r) (act batch) = Ok curr /\
    learn net draws load_state_dict optim_step batch w
    = Ok ((batch', loss), w') /\
    weight batch' = Some ce /\
    length ce = bsz /\
    (forall b, (b < bsz)%nat ->
       nth b ce 0
       = cross_entropy_eps (length (support (self w)))
           (nth b td []) (nth b curr [])) /\
    obs batch' = obs batch /\ obs_next batch' = obs_next batch /\
    act batch' = act batch /\ returns batch' = returns batch /\
    info batch' = info batch /\
    _cnt (base (self w')) = (_cnt (base (self w)) + 1)%nat.
Proof.
  intros Hready.
  destruct (learn_run Params Array Hidden InfoT net draws load_state_dict
              optim_step w batch bsz nact Hready)
    as (w0 & td & w1 & r & w2 & curr & ce & loss & w' & Hsync & Htd & Hfwd
        & Hg & _ & _ & Hlen & Hce & Hlearn & _ & Hcnt & _).
  exists w0, td, w1, r, w2, curr, (set_weight (snd (pop_weight batch)) ce),
    ce, loss, w'.
  repeat (split; [assumption|]). simpl. repeat split; assumption.
Qed.

End Claims.

(** ** The concrete policy *)

Lemma ex_policy_inv b : policy_inv (ex_policy_of b).
Proof.
  unfold policy_inv. simpl. repeat split; try reflexivity; try lia; lra.
Qed.

Lemma ex_policy_constructed b :
  __init__ (Ok b) 2 0 1 = Ok (ex_policy_of b).
Proof.
  unfold __init__. simpl. destruct (Rlt_dec 0 1); [reflexivity | lra].
Qed.

Lemma ex_shape3 : shape3 1 2 2 ex_dist.
Proof. repeat constructor. Qed.

Lemma ex_well_shaped b batch ik :
  (forall m, mask_of (batch_get batch ik) = Some m -> shape2 1 2 m) ->
  well_shaped ex_net (length (support (ex_policy_of b))) batch ik 1 2.
Proof.
  intros Hm. split; [lia|]. split; [intros theta; exact ex_shape3 | exact Hm].
Qed.

Lemma ex_learn_ready batch :
  (batch = ex_batch \/ batch = ex_batch_plain) ->
  learn_ready ex_net (self ex_world) batch 1 2.
Proof.
  intros [-> | ->].
  - split; [lia|].
    split; [discriminate|]. split; [split|split; [|split; [|split]]].
    + apply ex_well_shaped. discriminate.
    + repeat constructor.
    + apply ex_well_shaped. discriminate.
    + reflexivity.
    + intros [|b] Hb; simpl; lia.
    + intros wv E. inversion E. reflexivity.
  - split; [lia|].
    split; [discriminate|]. split; [split|split; [|split; [|split]]].
    + apply ex_well_shaped. discriminate.
    + repeat constructor.
    + apply ex_well_shaped. discriminate.
    + reflexivity.
    + intros [|b] Hb; simpl; lia.
    + intros wv E. discriminate.
Qed.

(** The rows of [ex_dist] are one and the same distribution. *)
Lemma ex_dist_row a : (a < 2)%nat -> nth a (nth 0 ex_dist []) [] = [1/2; 1/2].
Proof. destruct a as [|[|a]]; intros; simpl; [reflexivity | reflexivity | lia]. Qed.

(** The projection of the returns [[0; 1]] of the concrete batches leaves
    the uniform distribution as it is. *)
Lemma ex_target_row :
  map Rsum
    (terms_row ((1 - 0) / IZR (2 - 1)) (linspace 0 1 2)
       (map (clamp 0 1) [0; 1]) [1/2; 1/2])
  = [1/2; 1/2].
Proof.
  unfold terms_row, linspace, zipWith, proj_coef. simpl.
  assert (E0 : clamp 0 1 0 = 0)
    by (unfold clamp, Rmin, Rmax; repeat destruct Rle_dec; lra).
  assert (E1 : clamp 0 1 1 = 1)
    by (unfold clamp, Rmin, Rmax; repeat destruct Rle_dec; lra).
  rewrite E0, E1.
  replace ((1 - 0) / 1) with 1 by lra.
  replace (0 - (0 + 0 * 1)) with 0 by lra.
  replace (1 - (0 + 0 * 1)) with 1 by lra.
  replace (0 - (0 + 1 * 1)) with (Ropp 1) by lra.
  replace (1 - (0 + 1 * 1)) with 0 by lra.
  rewrite Rabs_Ropp, Rabs_R0, Rabs_R1.
  replace (1 - 0 / 1) with 1 by lra.
  replace (1 - 1 / 1) with 0 by lra.
  rewrite E0, E1. f_equal; [lra | f_equal; lra].
Qed.

(** ** Concrete runs of the methods *)

Example forward_masked_greedy :
  forward ex_net ex_draws ex_batch_masked None K_model K_obs ex_world
  = Ok ({| logits := ex_dist; fwd_act := [1%nat]; fwd_state := tt |},
        ex_world).
Proof. reflexivity. Qed.

Example forward_unmasked_greedy :
  forward ex_net ex_draws ex_batch None K_model K_obs ex_world
  = Ok ({| logits := ex_dist; fwd_act := [0%nat]; fwd_state := tt |},
        ex_world).
Proof.
  unfold forward, bind, lift, ret, get_self. simpl.
  unfold Rltb. decide_Rlt. reflexivity.
Qed.

Example forward_masked_exploring :
  forward ex_net ex_draws ex_batch_masked None K_model K_obs ex_world_explore
  = Ok ({| logits := ex_dist; fwd_act := [1%nat]; fwd_state := tt |},
        {| self := self ex_world_explore; rng := 3 |}).
Proof.
  unfold forward, bind, lift, ret, get_self. simpl.
  unfold isclose. 
  replace (Rabs (1 / 2 - 0)) with (1/2)
    by (unfold Rabs; destruct Rcase_abs; lra).
  rewrite Rabs_R0.
  decide_Rlt. simpl.
  unfold bind, lift, ret, get_self, rand, ex_draws, Rltb. simpl.
  decide_Rlt. reflexivity.
Qed.

Example forward_next_greedy :
  forward ex_net ex_draws ex_batch None K_model K_obs_next ex_world
  = Ok ({| logits := ex_dist; fwd_act := [0%nat]; fwd_state := tt |},
        ex_world).
Proof.
  unfold forward, bind, lift, ret, get_self. simpl.
  unfold Rltb. decide_Rlt. reflexivity.
Qed.

Example target_dist_uniform :
  _target_dist ex_net ex_draws ex_batch ex_world
  = Ok ([[1/2; 1/2]], ex_world).
Proof.
  unfold _target_dist, target_dist_terms, bind, get_self.
  change (_target (base (self ex_world))) with false. cbv beta iota.
  rewrite forward_next_greedy. unfold ret, lift. simpl.
  pose proof ex_target_row as E.
  unfold terms_row, linspace, zipWith, proj_coef in E. simpl in E.
  rewrite E. reflexivity.
Qed.

Example forward_popped_greedy :
  forward ex_net ex_draws (snd (pop_weight ex_batch)) None K_model K_obs
    ex_world
  = Ok ({| logits := ex_dist; fwd_act := [0%nat]; fwd_state := tt |},
        ex_world).
Proof.
  unfold forward, bind, lift, ret, get_self. simpl.
  unfold Rltb. decide_Rlt. reflexivity.
Qed.

Example learn_weighted_batch :
  exists ce loss w',
    learn ex_net ex_draws ex_load ex_optim ex_batch ex_world
    = Ok ((set_weight (snd (pop_weight ex_batch)) [ce], loss), w') /\
    ce = - ln (1/2 + 1e-8) /\
    loss = 2 * - ln (1/2 + 1e-8) /\
    _cnt (base (self w')) = 1%nat /\
    rng w' = 0%nat.
Proof.
  unfold learn, bind.
  change (maybe_sync ex_load ex_world) with (Ok (tt, ex_world)).
  cbv beta iota. rewrite target_dist_uniform. cbv beta iota.
  unfold pop_weight at 1. cbv beta iota.
  change {| obs := obs ex_batch; obs_next := obs_next ex_batch;
            act := act ex_batch; returns := returns ex_batch;
            weight := None; info := info ex_batch |}
    with (snd (pop_weight ex_batch)).
  rewrite forward_popped_greedy. cbv beta iota.
  unfold lift, ret, get_self, set_base, mean. simpl.
  eexists _, _, _. split; [reflexivity|].
  split; [lra|]. split; [lra|]. split; reflexivity.
Qed.

Lemma ex_sync_noop w0 :
  maybe_sync ex_load ex_world = Ok (tt, w0) -> w0 = ex_world.
Proof.
  unfold maybe_sync, bind, get_self, ret. simpl. intros H.
  inversion H. reflexivity.
Qed.

(** What [learn] computes on the concrete batches: target and current
    distribution are uniform, and the loss is the weight times the
    cross-entropy with the stabiliser. *)
Lemma ex_learn_values batch :
  batch = ex_batch \/ batch = ex_batch_plain ->
  exists td w1 r w2 curr res w',
    _target_dist ex_net ex_draws batch ex_world = Ok (td, w1) /\
    forward ex_net ex_draws (snd (pop_weight batch)) None K_model K_obs w1
    = Ok (r, w2) /\
    gather (logits r) (act batch) = Ok curr /\
    learn ex_net ex_draws ex_load ex_optim batch ex_world = Ok (res, w') /\
    nth 0 td [] = [1/2; 1/2] /\
    nth 0 curr [] = [1/2; 1/2] /\
    snd res
    = weight_at (weight batch) 0 * cross_entropy_eps 2 [1/2; 1/2] [1/2; 1/2].
Proof.
  intros Hb.
  assert (Hret : returns batch = [[0; 1]]) by (destruct Hb; subst; reflexivity).
  assert (Hact : act batch = [0%nat]) by (destruct Hb; subst; reflexivity).
  pose proof (ex_learn_ready batch Hb) as Hready.
  destruct (learn_run unit unit unit unit ex_net ex_draws ex_load ex_optim
              ex_world batch 1 2 Hready)
    as (w0 & td & w1 & r & w2 & curr & ce & loss & w' & Hsync & Htd & Hfwd
        & Hg & _ & _ & _ & Hce & Hlearn & Hloss & _).
  apply ex_sync_noop in Hsync. subst w0.
  destruct Hready as (_ & _ & (Hws & Hshape) & _).
  destruct (target_dist_run unit unit unit unit ex_net ex_draws ex_world batch
              1 2 Hws Hshape)
    as (nd & w1' & td' & Hsel & Hnd & _ & Hrun & _ & Hrow).
  rewrite Htd in Hrun. inversion Hrun; subst td' w1'; clear Hrun.
  (* the selected next-state distribution *)
  assert (End : nth 0 nd [] = [1/2; 1/2]).
  { destruct Hsel as (r1 & w1' & Hf1 & Hrest). simpl in Hrest.
    destruct Hrest as [_ Hg1].
    apply forward_logits in Hf1. simpl in Hf1. rewrite Hf1 in Hg1.
    destruct (gather_inv _ _ _ Hg1) as [Hlen Hn].
    destruct Hnd as [Hnd1 _]. rewrite Hnd1 in Hlen.
    destruct (Hn 0%nat ltac:(lia)) as (_ & Hlt & ->).
    apply ex_dist_row. simpl in Hlt. exact Hlt. }
  assert (Etd : nth 0 td [] = [1/2; 1/2]).
  { rewrite (Hrow 0%nat ltac:(lia)), End, Hret. exact ex_target_row. }
  assert (Ecurr : nth 0 curr [] = [1/2; 1/2]).
  { apply forward_logits in Hfwd. simpl in Hfwd. rewrite Hfwd, Hact in Hg.
    destruct (gather_inv _ _ _ Hg) as [_ Hn].
    destruct (Hn 0%nat ltac:(simpl; lia)) as (_ & _ & ->). reflexivity. }
  exists td, w1, r, w2, curr, (set_weight (snd (pop_weight batch)) ce, loss), w'.
  repeat (split; [assumption|]).
  simpl snd. rewrite Hloss. unfold sum_upto. simpl.
  rewrite (Hce 0%nat ltac:(lia)), Etd, Ecurr. simpl. lra.
Qed.

Lemma cross_entropy_eps_uniform :
  cross_entropy_eps 2 [1/2; 1/2] [1/2; 1/2] = - ln (1/2 + 1e-8).
Proof. unfold cross_entropy_eps, sum_upto. simpl. lra. Qed.

Lemma cross_entropy_spec_uniform :
  cross_entropy_spec 2 [1/2; 1/2] [1/2; 1/2] = - ln (1/2).
Proof. unfold cross_entropy_spec, sum_upto. simpl. lra. Qed.

Lemma ln_half_stabilised : ln (1/2 + 1e-8) <> ln (1/2).
Proof. intros E. apply ln_inv in E; lra. Qed.

Lemma ln_half_stabilised_twice : 2 * ln (1/2 + 1e-8) <> ln (1/2).
Proof.
  intros E.
  assert (E2 : ln ((1/2 + 1e-8) * (1/2 + 1e-8)) = ln (1/2))
    by (rewrite ln_mult by lra; lra).
  apply ln_inv in E2; lra.
Qed.

(** C2, as stated, fails on a batch from a prioritised buffer: the sample
    has weight [2], target and current distribution are uniform over the
    two atoms, and the loss [learn] returns, [2 * - ln (1/2 + 1e-8)], is not
    the mean cross-entropy [- ln (1/2)] of the two distributions. *)
Lemma learn_loss_is_not_plain_mean :
  exists res w',
    _target_dist ex_net ex_draws ex_batch ex_world
    = Ok ([[1/2; 1/2]], ex_world) /\
    forward ex_net ex_draws (snd (pop_weight ex_batch)) None K_model K_obs
      ex_world
    = Ok ({| logits := ex_dist; fwd_act := [0%nat]; fwd_state := tt |},
          ex_world) /\
    gather ex_dist (act ex_batch) = Ok [[1/2; 1/2]] /\
    learn ex_net ex_draws ex_load ex_optim ex_batch ex_world = Ok (res, w') /\
    snd res = 2 * - ln (1/2 + 1e-8) /\
    sum_upto 1 (fun b =>
      cross_entropy_spec 2 (nth b [[1/2; 1/2]] []) (nth b [[1/2; 1/2]] []))
    / INR 1 = - ln (1/2) /\
    snd res
    <> sum_upto 1 (fun b =>
         cross_entropy_spec 2 (nth b [[1/2; 1/2]] []) (nth b [[1/2; 1/2]] []))
       / INR 1.
Proof.
  destruct learn_weighted_batch as (ce & loss & w' & Hlearn & _ & Hloss & _).
  assert (Hspec :
    sum_upto 1 (fun b =>
      cross_entropy_spec 2 (nth b [[1/2; 1/2]] []) (nth b [[1/2; 1/2]] []))
    / INR 1 = - ln (1/2)).
  { unfold sum_upto. simpl. rewrite cross_entropy_spec_uniform. lra. }
  eexists _, w'.
  split; [exact target_dist_uniform|].
  split; [exact forward_popped_greedy|].
  split; [reflexivity|].
  split; [exact Hlearn|].
  split; [exact Hloss|].
  split; [exact Hspec|].
  rewrite Hspec. simpl snd. rewrite Hloss.
  pose proof ln_half_stabilised_twice. lra.
Qed.

(** Without any weight the stabiliser alone already moves the loss away
    from the mean cross-entropy. *)
Lemma learn_loss_stabiliser_matters :
  exists td w1 r w2 curr res w',
    _target_dist ex_net ex_draws ex_batch_plain ex_world = Ok (td, w1) /\
    forward ex_net ex_draws (snd (pop_weight ex_batch_plain)) None K_model
      K_obs w1 = Ok (r, w2) /\
    gather (logits r) (act ex_batch_plain) = Ok curr /\
    learn ex_net ex_draws ex_load ex_optim ex_batch_plain ex_world
    = Ok (res, w') /\
    snd res
    <> sum_upto 1 (fun b => cross_entropy_spec 2 (nth b td []) (nth b curr []))
       / INR 1.
Proof.
  destruct (ex_learn_values ex_batch_plain (or_intror eq_refl))
    as (td & w1 & r & w2 & curr & res & w' & Htd & Hfwd & Hg & Hlearn
        & Etd & Ecurr & Eloss).
  exists td, w1, r, w2, curr, res, w'.
  repeat (split; [assumption|]).
  rewrite Eloss. unfold sum_upto. simpl.
  rewrite Etd, Ecurr, cross_entropy_eps_uniform, cross_entropy_spec_uniform.
  pose proof ln_half_stabilised. lra.
Qed.

(** ** The theorems at the concrete policy and batches *)


Lemma forward_greedy_is_argmax_witness :
  exists r,
    forward ex_net ex_draws ex_batch None K_model K_obs ex_world
    = Ok (r, ex_world) /\
    logits r = ex_dist /\
    length (fwd_act r) = 1%nat /\
    forall b, (b < 1)%nat ->
      is_first_argmax
        (map (expected_value (support (self ex_world))) (nth b (logits r) []))
        (nth b (fwd_act r) 0%nat).
Proof.
  apply (forward_greedy_is_argmax unit unit unit unit ex_net ex_draws
           ex_world ex_batch None K_model K_obs 1 2).
  - reflexivity.
  - left. reflexivity.
  - lia.
  - repeat constructor.
Defined.

Lemma forward_respects_mask_witness :
  exists r w',
    forward ex_net ex_draws ex_batch_masked None K_model K_obs ex_world_explore
    = Ok (r, w') /\
    length (fwd_act r) = 1%nat /\
    forall b, (b < 1)%nat ->
      (exists a, nth a (nth b ex_mask []) false = true) ->
      nth (nth b (fwd_act r) 0%nat) (nth b ex_mask []) false = true.
Proof.
  apply (forward_respects_mask unit unit unit unit ex_net ex_draws
           ex_world_explore ex_batch_masked None K_model K_obs 1 2 ex_mask).
  - reflexivity.
  - repeat constructor.
  - lia.
  - repeat constructor.
Defined.

Lemma target_dist_is_projection_witness :
  exists nd w' td,
    selected_next_dist ex_net ex_draws ex_batch ex_world nd w' /\
    _target_dist ex_net ex_draws ex_batch ex_world = Ok (td, w') /\
    forall b j, (b < 1)%nat -> (j < length (support (self ex_world)))%nat ->
      nth j (nth b td []) 0
      = projection_spec (self ex_world) (returns ex_batch) nd b j.
Proof.
  apply (target_dist_is_projection unit unit unit unit ex_net ex_draws
           ex_world ex_batch 1 2).
  split.
  - split; [lia|]. split; [intros theta; repeat constructor|].
    intros m E. discriminate.
  - repeat constructor.
Defined.

Lemma target_dist_frame_witness :
  exists td w',
    _target_dist ex_net ex_draws ex_batch ex_world = Ok (td, w') /\
    self w' = self ex_world /\
    shape2 1 (Z.to_nat (_num_atoms (self ex_world))) td.
Proof.
  apply (target_dist_frame unit unit unit unit ex_net ex_draws
           ex_world ex_batch 1 2).
  - unfold policy_inv. simpl. repeat split; try reflexivity; try lia; lra.
  - split.
    + split; [lia|]. split; [intros theta; repeat constructor|].
      intros m E. discriminate.
    + repeat constructor.
Defined.



Lemma learn_loss_is_weighted_mean_witness :
  exists w0 td w1 r w2 curr batch' loss w',
    maybe_sync ex_load ex_world = Ok (tt, w0) /\
    _target_dist ex_net ex_draws ex_batch w0 = Ok (td, w1) /\
    forward ex_net ex_draws (snd (pop_weight ex_batch)) None K_model K_obs w1
    = Ok (r, w2) /\
    gather (logits r) (act ex_batch) = Ok curr /\
    learn ex_net ex_draws ex_load ex_optim ex_batch ex_world
    = Ok ((batch', loss), w') /\
    loss = sum_upto 1 (fun b =>
             weight_at (weight ex_batch) b
             * cross_entropy_eps (length (support (self ex_world)))
                 (nth b td []) (nth b curr []))
           / INR 1.
Proof.
  apply (learn_loss_is_weighted_mean unit unit unit unit ex_net ex_draws
           ex_load ex_optim ex_world ex_batch 1 2).
  split; [lia|].
  split; [discriminate|]. split; [split|split; [|split; [|split]]].
  - split; [lia|]. split; [intros theta; repeat constructor|].
    intros m E. discriminate.
  - repeat constructor.
  - split; [lia|]. split; [intros theta; repeat constructor|].
    intros m E. discriminate.
  - reflexivity.
  - intros [|b] Hb; simpl; lia.
  - intros wv E. inversion E. reflexivity.
Defined.

Lemma learn_sets_weight_and_counts_witness :
  exists w0 td w1 r w2 curr batch' ce loss w',
    maybe_sync ex_load ex_world = Ok (tt, w0) /\
    _target_dist ex_net ex_draws ex_batch w0 = Ok (td, w1) /\
    forward ex_net ex_draws (snd (pop_weight ex_batch)) None K_model K_obs w1
    = Ok (r, w2) /\
    gather (logits r) (act ex_batch) = Ok curr /\
    learn ex_net ex_draws ex_load ex_optim ex_batch ex_world
    = Ok ((batch', loss), w') /\
    weight batch' = Some ce /\
    length ce = 1%nat /\
    (forall b, (b < 1)%nat ->
       nth b ce 0
       = cross_entropy_eps (length (support (self ex_world)))
           (nth b td []) (nth b curr [])) /\
    obs batch' = obs ex_batch /\ obs_next batch' = obs_next ex_batch /\
    act batch' = act ex_batch /\ returns batch' = returns ex_batch /\
    info batch' = info ex_batch /\
    _cnt (base (self w')) = (_cnt (base (self ex_world)) + 1)%nat.
Proof.
  apply (learn_sets_weight_and_counts unit unit unit unit ex_net ex_draws
           ex_load ex_optim ex_world ex_batch 1 2).
  split; [lia|].
  split; [discriminate|]. split; [split|split; [|split; [|split]]].
  - split; [lia|]. split; [intros theta; repeat constructor|].
    intros m E. discriminate.
  - repeat constructor.
  - split; [lia|]. split; [intros theta; repeat constructor|].
    intros m E. discriminate.
  - reflexivity.
  - intros [|b] Hb; simpl; lia.
  - intros wv E. inversion E. reflexivity.
Defined.

(* ------------------------------------------------------------------ *)
(** * Further properties of the code *)

(** ** The constructor *)

(** X1. The constructor's checks run in the order of the source: an error
    of the base class's constructor comes first, then the assertion on
    [num_atoms], whatever [v_min] and [v_max] are, then the assertion on
    [v_min < v_max]. *)
Theorem init_checks_in_order (Params : Type) (b : DQNBase Params)
    (e : error) (num_atoms : Z) (v_min v_max : R) :
  __init__ (@Err (DQNBase Params) e) num_atoms v_min v_max = Err e /\
  ((num_atoms <= 1)%Z ->
   __init__ (Ok b) num_atoms v_min v_max
   = Err (AssertionError "num_atoms should be greater than 1")) /\
  ((1 < num_atoms)%Z -> v_max <= v_min ->
   __init__ (Ok b) num_atoms v_min v_max
   = Err (AssertionError "v_max should be larger than v_min")).
Proof.
  split; [reflexivity|]. unfold __init__. simpl. split.
  - intros Hn. apply Z.ltb_ge in Hn. rewrite Hn. reflexivity.
  - intros Hn Hv. apply Z.ltb_lt in Hn. rewrite Hn. simpl.
    destruct (Rlt_dec v_min v_max); [lra | reflexivity].
Qed.



(** ** The projection coefficient between two atoms *)

Lemma clamp_id lo hi x : lo <= x <= hi -> clamp lo hi x = x.
Proof. intros H. unfold clamp, Rmin, Rmax. repeat destruct Rle_dec; lra. Qed.

Lemma clamp_above lo hi x : lo <= hi -> hi <= x -> clamp lo hi x = hi.
Proof. intros H1 H2. unfold clamp, Rmin, Rmax. repeat destruct Rle_dec; lra. Qed.






Section MoreProjection.

Variables Params Array Hidden InfoT : Type.
Variable net : Params -> Obs Array -> option Hidden -> InfoT -> tensor3 * Hidden.
Variable draws : nat -> R.

Local Abbreviation World := (World Params).
Local Abbreviation Batch := (Batch Array InfoT).





End MoreProjection.

(* ------------------------------------------------------------------ *)
(** ** The forward pass *)

(** ** What a successful step tells *)

Lemma zip_strict_inv {A B C} e (f : A -> B -> result C) da db dc :
  forall xs ys zs,
    zip_strict e f xs ys = Ok zs ->
    length xs = length ys /\ length zs = length xs /\
    forall k, (k < length xs)%nat ->
      f (nth k xs da) (nth k ys db) = Ok (nth k zs dc).
Proof.
  induction xs as [|x xs IH]; intros [|y ys] zs H; simpl in H;
    try discriminate.
  - inversion H; subst. repeat split. intros k Hk. simpl in Hk. lia.
  - destruct (f x y) as [z|] eqn:Ez; simpl in H; [|discriminate].
    destruct (zip_strict e f xs ys) as [zs'|] eqn:Ezs; simpl in H;
      [|discriminate].
    inversion H; subst; clear H.
    destruct (IH ys zs' Ezs) as (H1 & H2 & H3).
    simpl. repeat split; try lia.
    intros [|k] Hk; [exact Ez | apply H3; lia].
Qed.

Lemma list_set_inv {A} (d : A) :
  forall l i v l',
    list_set l i v = Ok l' ->
    (i < length l)%nat /\ length l' = length l /\ nth i l' d = v /\
    forall k, k <> i -> nth k l' d = nth k l d.
Proof.
  induction l as [|x xs IH]; intros i v l' H; simpl in H; [discriminate|].
  destruct i as [|i].
  - inversion H; subst. simpl. repeat split; try lia.
    intros [|k] Hk; [congruence | reflexivity].
  - destruct (list_set xs i v) as [xs'|] eqn:E; simpl in H; [|discriminate].
    inversion H; subst; clear H.
    destruct (IH i v xs' E) as (H1 & H2 & H3 & H4).
    simpl. repeat split; try lia; try assumption.
    intros [|k] Hk; [reflexivity | apply H4; congruence].
Qed.

Lemma argmax_from_bound {A} (ltb : A -> A -> bool) :
  forall xs best besti i,
    (besti < i)%nat ->
    (argmax_from ltb best besti i xs < i + length xs)%nat.
Proof.
  induction xs as [|x xs IH]; intros best besti i Hb; simpl; [lia|].
  destruct (ltb best x).
  - specialize (IH x i (S i) ltac:(lia)). lia.
  - specialize (IH best besti (S i) ltac:(lia)). lia.
Qed.

Lemma argmax_bound {A} (ltb : A -> A -> bool) e l r :
  argmax ltb e l = Ok r -> (r < length l)%nat.
Proof.
  destruct l as [|x xs]; simpl; [discriminate|].
  intros H. inversion H; subst.
  pose proof (argmax_from_bound ltb xs x 0%nat 1%nat ltac:(lia)). lia.
Qed.

Lemma expectation_inv sup dist q :
  expectation sup dist = Ok q ->
  length q = length dist /\
  forall b, (b < length dist)%nat ->
    length (nth b q []) = length (nth b dist []).
Proof.
  unfold expectation. intros H.
  destruct (rmapM_inv _ [] [] _ _ H) as [Hlen Hnth].
  split; [exact Hlen|]. intros b Hb. specialize (Hnth b Hb).
  destruct (rmapM_inv _ [] 0 _ _ Hnth) as [Hl _]. exact Hl.
Qed.

Lemma mask_fill1_length v m q_ :
  mask_fill1 v m = Ok q_ -> length q_ = length v /\ length v = length m.
Proof.
  unfold mask_fill1. intros H.
  destruct (zip_strict_inv _ _ 0 false NegInf _ _ _ H) as (H1 & H2 & _).
  split; assumption.
Qed.

Lemma mask_greedy_inv mask q act0 act1 :
  mask_greedy mask q act0 = Ok act1 ->
  length act0 = length q ->
  (forall b, (b < length q)%nat -> (nth b act0 0 < length (nth b q []))%nat) ->
  length act1 = length q /\
  forall b, (b < length q)%nat -> (nth b act1 0 < length (nth b q []))%nat.
Proof.
  unfold mask_greedy. destruct mask as [m|].
  - destruct (mask_fill2 q m) as [q_|] eqn:Eq; simpl; [|discriminate].
    intros H _ _.
    unfold mask_fill2 in Eq.
    destruct (zip_strict_inv _ _ [] [] [] _ _ _ Eq) as (Hqm & Hlq & Hrows).
    destruct (rmapM_inv _ [] 0%nat _ _ H) as [Hlen Hnth].
    split; [lia|].
    intros b Hb. specialize (Hnth b ltac:(lia)).
    apply argmax_bound in Hnth.
    destruct (mask_fill1_length _ _ _ (Hrows b Hb)) as [Hl _]. lia.
  - intros H Hlen Hlt. inversion H; subst. split; assumption.
Qed.

Lemma random_choice_bound mask i v a :
  random_choice mask i v = Ok a -> (a < length v)%nat.
Proof.
  unfold random_choice. destruct mask as [m|].
  - destruct (nth_res m i) as [mi|]; simpl; [|discriminate].
    destruct (mask_fill1 v mi) as [q_|] eqn:E; simpl; [|discriminate].
    intros H. apply argmax_bound in H.
    destruct (mask_fill1_length _ _ _ E) as [Hl _]. lia.
  - simpl. intros H. apply argmax_bound in H.
    rewrite length_map in H. exact H.
Qed.

Lemma nth_res_inv {A} (l : list A) i x d :
  nth_res l i = Ok x -> (i < length l)%nat /\ nth i l d = x.
Proof.
  unfold nth_res. destruct (nth_error l i) as [y|] eqn:E; [|discriminate].
  intros H. inversion H; subst. split.
  - apply nth_error_Some. congruence.
  - apply nth_error_nth. exact E.
Qed.

(** ** Which error a failing step raises *)

Lemma rmapM_err_kind {A B} (f : A -> result B) e :
  forall l,
    (forall x e', In x l -> f x = Err e' -> e' = e) ->
    forall e', rmapM f l = Err e' -> e' = e.
Proof.
  induction l as [|x xs IH]; intros Hf e' H; simpl in H; [discriminate|].
  destruct (f x) as [y|e0] eqn:Ex; simpl in H.
  - destruct (rmapM f xs) as [ys|e1] eqn:Exs; simpl in H; [discriminate|].
    inversion H; subst. apply (IH (fun x e' Hx => Hf x e' (or_intror Hx))).
    reflexivity.
  - inversion H; subst. apply (Hf x e' (or_introl eq_refl) Ex).
Qed.

Lemma zip_strict_err_kind {A B C} e (f : A -> B -> result C) :
  (forall x y e', f x y = Err e' -> e' = e) ->
  forall xs ys e', zip_strict e f xs ys = Err e' -> e' = e.
Proof.
  intros Hf. induction xs as [|x xs IH]; intros [|y ys] e' H; simpl in H;
    try discriminate; try (inversion H; reflexivity).
  destruct (f x y) as [z|e0] eqn:Ez; simpl in H.
  - destruct (zip_strict e f xs ys) as [zs|e1] eqn:Ezs; simpl in H;
      [discriminate|].
    inversion H; subst. apply (IH ys e' Ezs).
  - inversion H; subst. apply (Hf x y e' Ez).
Qed.

Lemma bcast_err_kind {A B C} (f : A -> B -> result C) :
  (forall x y e', f x y = Err e' -> e' = RuntimeError) ->
  forall xs ys e', bcast f xs ys = Err e' -> e' = RuntimeError.
Proof.
  intros Hf xs ys e' H.
  destruct xs as [|x [|x' xs]]; destruct ys as [|y [|y' ys]];
    unfold bcast in H;
    first [ apply (zip_strict_err_kind _ _ Hf _ _ _ H)
          | apply (rmapM_err_kind _ RuntimeError _
                     (fun a e0 _ Ha => Hf _ _ e0 Ha) _ H) ].
Qed.

Lemma bcast1_err_kind op xs ys e' :
  bcast1 op xs ys = Err e' -> e' = RuntimeError.
Proof.
  apply bcast_err_kind. intros x y e0 H. discriminate.
Qed.

Lemma bcast2_err_kind op xs ys e' :
  bcast2 op xs ys = Err e' -> e' = RuntimeError.
Proof.
  apply bcast_err_kind. intros x y e0 H. apply (bcast1_err_kind _ _ _ _ H).
Qed.

Lemma bcast3_err_kind op xs ys e' :
  bcast3 op xs ys = Err e' -> e' = RuntimeError.
Proof.
  apply bcast_err_kind. intros x y e0 H. apply (bcast2_err_kind _ _ _ _ H).
Qed.

Lemma zip_strict_inv_len {A B C} e (f : A -> B -> result C) :
  forall xs ys zs, zip_strict e f xs ys = Ok zs -> length xs = length ys.
Proof.
  induction xs as [|x xs IH]; intros [|y ys] zs H; simpl in H;
    try discriminate; [reflexivity|].
  destruct (f x y); simpl in H; [|discriminate].
  destruct (zip_strict e f xs ys) as [zs'|] eqn:E; simpl in H; [|discriminate].
  simpl. f_equal. apply (IH ys zs' E).
Qed.

(** Broadcasting succeeds only on equal sizes or a size of one. *)
Lemma bcast_inv_len {A B C} (f : A -> B -> result C) xs ys zs :
  bcast f xs ys = Ok zs ->
  length xs = length ys \/ length xs = 1%nat \/ length ys = 1%nat.
Proof.
  intros H.
  destruct xs as [|x [|x' xs]]; destruct ys as [|y [|y' ys]];
    unfold bcast in H; simpl; auto;
    left; apply (zip_strict_inv_len _ _ _ _ _ H).
Qed.

(** Whatever the sizes, broadcasting combines the two first entries. *)
Lemma bcast_inv_head {A B C} (f : A -> B -> result C) x xs y ys zs :
  bcast f (x :: xs) (y :: ys) = Ok zs -> exists z, f x y = Ok z.
Proof.
  intros H.
  destruct xs as [|x' xs]; destruct ys as [|y' ys];
    unfold bcast in H; simpl in H;
    destruct (f x y) as [z|]; simpl in H; try discriminate;
    eexists; reflexivity.
Qed.

Lemma expectation_err_kind sup dist e' :
  expectation sup dist = Err e' -> e' = RuntimeError.
Proof.
  unfold expectation. apply rmapM_err_kind. intros mat e0 _.
  apply rmapM_err_kind. intros row e1 _ H.
  destruct (bcast1 Rmult row sup) as [r|e2] eqn:E; simpl in H;
    [discriminate|].
  inversion H; subst. apply (bcast1_err_kind _ _ _ _ E).
Qed.

Lemma expectation_row_sizes sup dist q b a :
  expectation sup dist = Ok q ->
  (b < length dist)%nat -> (a < length (nth b dist []))%nat ->
  length (nth a (nth b dist []) []) = length sup
  \/ length (nth a (nth b dist []) []) = 1%nat \/ length sup = 1%nat.
Proof.
  unfold expectation. intros H Hb Ha.
  destruct (rmapM_inv _ [] [] _ _ H) as [_ Hnth].
  specialize (Hnth b Hb).
  destruct (rmapM_inv _ [] 0 _ _ Hnth) as [_ Hrow].
  specialize (Hrow a Ha).
  destruct (bcast1 Rmult (nth a (nth b dist []) []) sup) as [r|] eqn:E;
    simpl in Hrow; [|discriminate].
  apply (bcast_inv_len _ _ _ _ E).
Qed.

Lemma mask_fill1_err_kind v m e' : mask_fill1 v m = Err e' -> e' = IndexError.
Proof.
  unfold mask_fill1. apply zip_strict_err_kind. intros x y e0 H. discriminate.
Qed.

Lemma mask_fill2_err_kind q m e' : mask_fill2 q m = Err e' -> e' = IndexError.
Proof.
  unfold mask_fill2. apply zip_strict_err_kind. intros x y e0 H.
  apply (mask_fill1_err_kind _ _ _ H).
Qed.

Lemma mask_fill2_shape bsz nact q m q_ :
  shape2 bsz nact q -> mask_fill2 q m = Ok q_ -> shape2 bsz nact m.
Proof.
  intros Hq H. unfold mask_fill2 in H.
  destruct (zip_strict_inv _ _ [] [] [] _ _ _ H) as (Hqm & _ & Hrows).
  pose proof (proj1 Hq) as Hl. split; [lia|].
  apply Forall_forall. intros row Hrow.
  destruct (In_nth m row [] Hrow) as (b & Hb & <-).
  specialize (Hrows b ltac:(lia)).
  destruct (mask_fill1_length _ _ _ Hrows) as [_ Hvm].
  rewrite <- Hvm. apply (shape2_nth bsz nact q b Hq). lia.
Qed.

Section MoreForward.

Variables Params Array Hidden InfoT : Type.
Variable net : Params -> Obs Array -> option Hidden -> InfoT -> tensor3 * Hidden.
Variable draws : nat -> R.

Local Abbreviation World := (World Params).
Local Abbreviation Batch := (Batch Array InfoT).

(** [np.random.rand(n)] takes the next [n] numbers of the generator. *)
Lemma rand_vec_exact n :
  forall w : World,
    rand_vec draws n w
    = Ok (map (fun k => draws (rng w + k)) (seq 0 n),
          {| self := self w; rng := rng w + n |}).
Proof.
  induction n as [|n IH]; intros w; simpl.
  - unfold ret. rewrite Nat.add_0_r. destruct w. reflexivity.
  - unfold bind at 1. unfold rand at 1.
    unfold bind at 1. rewrite IH. unfold ret. simpl.
    rewrite Nat.add_0_r, <- seq_shift, map_map.
    replace (rng w + S n)%nat with (S (rng w + n)) by lia.
    rewrite (map_ext (fun k => draws (S (rng w + k)))
               (fun x => draws (rng w + S x)))
      by (intros k; f_equal; lia).
    reflexivity.
Qed.

(** The loop of [forward]: what it leaves whenever it ends normally. *)
Lemma explore_post mask q N :
  forall idx act (w : World) act' w',
    explore draws mask q idx act w = Ok (act', w') ->
    (forall i, In i idx -> (length (nth i q []) <= N)%nat) ->
    self w' = self w /\
    (rng w + length idx <= rng w' <= rng w + length idx * (1 + N))%nat /\
    length act' = length act /\
    ((forall b, (b < length act)%nat ->
        (nth b act 0 < length (nth b q []))%nat) ->
     forall b, (b < length act)%nat ->
        (nth b act' 0 < length (nth b q []))%nat).
Proof.
  induction idx as [|i rest IH]; intros act w act' w' H HN; simpl in H.
  - unfold ret in H. inversion H; subst. simpl.
    split; [reflexivity|]. split; [lia|]. split; [reflexivity | auto].
  - unfold bind, lift, ret, get_self, rand in H. cbv beta iota in H.
    set (w1 := {| self := self w; rng := S (rng w) |}) in *.
    assert (Hrest : forall j, In j rest -> (length (nth j q []) <= N)%nat)
      by (intros j Hj; apply HN; right; exact Hj).
    destruct (Rltb (draws (rng w)) (eps (base (self w)))).
    + destruct (nth_res q i) as [qi|] eqn:Eqi; [|discriminate].
      cbv beta iota in H.
      rewrite rand_vec_exact in H. cbv beta iota in H.
      set (v := map (fun k => draws (rng w1 + k)) (seq 0 (length qi))) in *.
      set (w2 := {| self := self w1; rng := rng w1 + length qi |}) in *.
      destruct (random_choice mask i v) as [a|] eqn:Ea; [|discriminate].
      cbv beta iota in H.
      destruct (list_set act i a) as [act1|] eqn:Eset; [|discriminate].
      cbv beta iota in H.
      destruct (IH act1 w2 act' w' H Hrest) as (Hs & Hr & Hl & HP).
      destruct (list_set_inv 0%nat _ _ _ _ Eset) as (Hi & Hl1 & Hn1 & Ho1).
      destruct (nth_res_inv q i qi [] Eqi) as [Hiq Hqi].
      apply random_choice_bound in Ea.
      unfold v in Ea. rewrite length_map, length_seq in Ea.
      assert (HqN : (length qi <= N)%nat)
        by (rewrite <- Hqi; apply HN; left; reflexivity).
      simpl in Hr, Hs. split; [exact Hs|].
      split; [simpl; lia|]. split; [lia|].
      intros Hact b Hb. apply HP; [|lia].
      intros b' Hb'. destruct (Nat.eq_dec b' i) as [->|Hne].
      * rewrite Hn1, Hqi. exact Ea.
      * rewrite Ho1 by exact Hne. apply Hact. lia.
    + destruct (IH act w1 act' w' H Hrest) as (Hs & Hr & Hl & HP).
      simpl in Hr, Hs. split; [exact Hs|].
      split; [simpl; lia|]. split; [exact Hl | exact HP].
Qed.

(** X7. Whenever [forward] returns, it has left the policy object as it
    was, its [logits] and [state] are the network's outputs, and it returns
    exactly one action per sample, each an index into that sample's rows of
    the network output; the generator has only moved forward. *)
Theorem forward_returns_valid_actions (w : World) (batch : Batch)
    (state : option Hidden) (mk : ModelKey) (ik : InputKey)
    (r : FwdOut Hidden) (w' : World) :
  forward net draws batch state mk ik w = Ok (r, w') ->
  self w' = self w /\
  (rng w <= rng w')%nat /\
  logits r
  = fst (net (getattr_model (self w) mk) (obs_of (batch_get batch ik)) state
             (info batch)) /\
  fwd_state r
  = snd (net (getattr_model (self w) mk) (obs_of (batch_get batch ik)) state
             (info batch)) /\
  length (fwd_act r) = length (logits r) /\
  forall b, (b < length (logits r))%nat ->
    (nth b (fwd_act r) 0 < length (nth b (logits r) []))%nat.
Proof.
  unfold forward, bind, lift, ret, get_self. cbv beta iota.
  destruct (net (getattr_model (self w) mk) (obs_of (batch_get batch ik))
                state (info batch)) as [dist h].
  destruct (expectation (support (self w)) dist) as [q|] eqn:Eq;
    [|discriminate].
  destruct (rmapM (argmax Rltb RuntimeError) q) as [a0|] eqn:E0;
    [|discriminate].
  destruct (mask_greedy (mask_of (batch_get batch ik)) q a0) as [a1|] eqn:E1;
    [|discriminate].
  cbv beta iota.
  destruct (expectation_inv _ _ _ Eq) as [Hlq Hrows].
  destruct (rmapM_inv _ [] 0%nat _ _ E0) as [Hl0 Hn0].
  assert (H0 : forall b, (b < length q)%nat ->
                 (nth b a0 0 < length (nth b q []))%nat)
    by (intros b Hb; apply (argmax_bound _ _ _ _ (Hn0 b Hb))).
  destruct (mask_greedy_inv _ _ _ _ E1 Hl0 H0) as [Hl1 H1].
  destruct (negb (updating (base (self w)))
            && negb (isclose (eps (base (self w))) 0)).
  - destruct (explore draws (mask_of (batch_get batch ik)) q
                (seq 0 (length q)) a1 w) as [[a2 w2]|] eqn:E2; [|discriminate].
    intros H. inversion H; subst; clear H. simpl.
    destruct (explore_post _ q (list_max (map (@length R) q)) _ _ _ _ _ E2)
      as (Hs & Hr & Hl2 & HP).
    { intros i _. destruct (Nat.lt_ge_cases i (length q)) as [Hi|Hi].
      - assert (Hin : In (length (nth i q [])) (map (@length R) q))
          by (apply in_map, nth_In; exact Hi).
        pose proof (proj1 (list_max_le (map (@length R) q) _)
                      (Nat.le_refl _)) as Hmax.
        rewrite Forall_forall in Hmax. apply Hmax. exact Hin.
      - rewrite nth_overflow by exact Hi. simpl. lia. }
    split; [exact Hs|]. split; [lia|].
    split; [reflexivity|]. split; [reflexivity|].
    split; [lia|].
    intros b Hb. rewrite <- (Hrows b Hb). apply HP; rewrite ?Hl1; try lia.
    intros b' Hb'. apply H1. lia.
  - intros H. inversion H; subst; clear H. simpl.
    split; [reflexivity|]. split; [lia|].
    split; [reflexivity|]. split; [reflexivity|].
    split; [lia|].
    intros b Hb. rewrite <- (Hrows b Hb). apply H1. lia.
Qed.

(** The steps of a run of [forward] that ends normally. *)
Lemma forward_inv (w : World) (batch : Batch) state mk ik r w' :
  forward net draws batch state mk ik w = Ok (r, w') ->
  exists q act0 act1,
    expectation (support (self w)) (logits r) = Ok q /\
    rmapM (argmax Rltb RuntimeError) q = Ok act0 /\
    mask_greedy (mask_of (batch_get batch ik)) q act0 = Ok act1 /\
    (if negb (updating (base (self w)))
        && negb (isclose (eps (base (self w))) 0)
     then explore draws (mask_of (batch_get batch ik)) q (seq 0 (length q))
            act1 w = Ok (fwd_act r, w')
     else fwd_act r = act1 /\ w' = w).
Proof.
  unfold forward, bind, lift, ret, get_self. cbv beta iota.
  destruct (net (getattr_model (self w) mk) (obs_of (batch_get batch ik))
                state (info batch)) as [dist h].
  destruct (expectation (support (self w)) dist) as [q|] eqn:Eq;
    [|discriminate].
  destruct (rmapM (argmax Rltb RuntimeError) q) as [a0|] eqn:E0;
    [|discriminate].
  destruct (mask_greedy (mask_of (batch_get batch ik)) q a0) as [a1|] eqn:E1;
    [|discriminate].
  cbv beta iota.
  destruct (negb (updating (base (self w)))
            && negb (isclose (eps (base (self w))) 0)).
  - destruct (explore draws (mask_of (batch_get batch ik)) q
                (seq 0 (length q)) a1 w) as [[a2 w2]|] eqn:E2; [|discriminate].
    intros H. inversion H; subst; clear H. simpl.
    exists q, a0, a1. repeat split; assumption.
  - intros H. inversion H; subst; clear H. simpl.
    exists q, a0, a1. repeat split; assumption.
Qed.

Lemma row_length_le_max (q : tensor2) (i : nat) :
  (length (nth i q []) <= list_max (map (@length R) q))%nat.
Proof.
  destruct (Nat.lt_ge_cases i (length q)) as [Hi|Hi].
  - pose proof (proj1 (list_max_le (map (@length R) q) _) (Nat.le_refl _))
      as Hmax.
    rewrite Forall_forall in Hmax. apply Hmax. apply in_map, nth_In. exact Hi.
  - rewrite nth_overflow by exact Hi. simpl. lia.
Qed.

(** [forward] leaves the policy object as it was and only moves the
    generator forward. *)
Lemma forward_frame (w : World) (batch : Batch) state mk ik r w' :
  forward net draws batch state mk ik w = Ok (r, w') ->
  self w' = self w /\ (rng w <= rng w')%nat.
Proof.
  intros H.
  destruct (forward_inv _ _ _ _ _ _ _ H) as (q & a0 & a1 & _ & _ & _ & Hx).
  destruct (negb (updating (base (self w)))
            && negb (isclose (eps (base (self w))) 0)).
  - destruct (explore_post _ q (list_max (map (@length R) q)) _ _ _ _ _ Hx)
      as (Hs & Hr & _).
    { intros i _. apply row_length_le_max. }
    split; [exact Hs | lia].
  - destruct Hx as [_ ->]. split; [reflexivity | lia].
Qed.

Lemma suppressed_test (p : Policy Params) :
  updating (base p) = true \/ isclose (eps (base p)) 0 = true ->
  negb (updating (base p)) && negb (isclose (eps (base p)) 0) = false.
Proof.
  intros [H|H]; rewrite H; simpl; [reflexivity | apply andb_false_r].
Qed.

(** With exploration suppressed [forward] draws nothing, mask or not. *)
Lemma forward_suppressed_no_draw (w : World) (batch : Batch) state mk ik r w' :
  forward net draws batch state mk ik w = Ok (r, w') ->
  updating (base (self w)) = true
  \/ isclose (eps (base (self w))) 0 = true ->
  w' = w.
Proof.
  intros H Hs. destruct (forward_inv _ _ _ _ _ _ _ H)
    as (q & a0 & a1 & _ & _ & _ & Hx).
  rewrite (suppressed_test _ Hs) in Hx. apply Hx.
Qed.

(** The greedy choice under a mask: the first best unmasked action. *)
Lemma mask_greedy_best (m : list (list bool)) (q : tensor2) act0 act1 b :
  mask_greedy (Some m) q act0 = Ok act1 ->
  (b < length q)%nat ->
  (exists a, nth a (nth b m []) false = true) ->
  nth (nth b act1 0%nat) (nth b m []) false = true /\
  (forall a', nth a' (nth b m []) false = true ->
     nth a' (nth b q []) 0 <= nth (nth b act1 0%nat) (nth b q []) 0) /\
  (forall a', (a' < nth b act1 0)%nat -> nth a' (nth b m []) false = true ->
     nth a' (nth b q []) 0 < nth (nth b act1 0%nat) (nth b q []) 0).
Proof.
  unfold mask_greedy.
  destruct (mask_fill2 q m) as [q_|] eqn:Eq; simpl; [|discriminate].
  intros H Hb Hex.
  unfold mask_fill2 in Eq.
  destruct (zip_strict_inv _ _ [] [] [] _ _ _ Eq) as (Hqm & Hlq & Hrows).
  destruct (rmapM_inv _ [] 0%nat _ _ H) as [Hlen Hnth].
  specialize (Hnth b ltac:(lia)). specialize (Hrows b Hb).
  destruct (mask_fill1_length _ _ _ Hrows) as [_ Hvm].
  rewrite (mask_fill1_ok _ _ Hvm) in Hrows. inversion Hrows as [Hrow].
  rewrite <- Hrow in Hnth. clear Hrows Hrow.
  set (a := nth b act1 0%nat) in *.
  set (v := nth b q []) in *. set (mb := nth b m []) in *.
  destruct (argmax_masked_valid _ v mb a Hvm Hnth) as [Ha Hval].
  specialize (Hval Hex).
  destruct (argmax_first_max ereal ereal_ltb ereal_ltb_asym
              ereal_ltb_ge_trans NegInf _ _ a Hnth) as (_ & Hmax & Hfirst).
  rewrite zipWith_length in Hmax by exact Hvm.
  assert (Hent : forall k, (k < length v)%nat ->
            nth k (zipWith fill v mb) NegInf
            = fill (nth k v 0) (nth k mb false))
    by (intros k Hk; apply nth_zipWith; assumption).
  split; [exact Hval|]. split.
  - intros a' Ha'.
    assert (Ha'len : (a' < length v)%nat).
    { rewrite Hvm. destruct (Nat.lt_ge_cases a' (length mb)); [assumption|].
      rewrite nth_overflow in Ha' by assumption. discriminate. }
    specialize (Hmax a' Ha'len).
    rewrite !Hent in Hmax by lia. rewrite Hval, Ha' in Hmax. simpl in Hmax.
    unfold Rltb in Hmax. destruct Rlt_dec; [discriminate | lra].
  - intros a' Hlt Ha'.
    specialize (Hfirst a' Hlt).
    rewrite !Hent in Hfirst by lia. rewrite Hval, Ha' in Hfirst.
    simpl in Hfirst. unfold Rltb in Hfirst.
    destruct Rlt_dec; [assumption | discriminate].
Qed.

(** X8. With a mask and exploration suppressed, [forward] returns for each
    sample that has an unmasked action the first unmasked action of maximal
    expectation [sum_j dist[b,a,j] * support[j]], and draws no random
    number. *)
Theorem forward_masked_greedy_is_best (w : World) (batch : Batch)
    (state : option Hidden) (mk : ModelKey) (ik : InputKey) (bsz nact : nat)
    (m : list (list bool)) :
  mask_of (batch_get batch ik) = Some m ->
  shape2 bsz nact m ->
  updating (base (self w)) = true \/ isclose (eps (base (self w))) 0 = true ->
  (0 < nact)%nat ->
  shape3 bsz nact (length (support (self w)))
    (fst (net (getattr_model (self w) mk) (obs_of (batch_get batch ik)) state
              (info batch))) ->
  exists r,
    forward net draws batch state mk ik w = Ok (r, w) /\
    forall b, (b < bsz)%nat ->
      (exists a, nth a (nth b m []) false = true) ->
      nth (nth b (fwd_act r) 0%nat) (nth b m []) false = true /\
      (forall a', nth a' (nth b m []) false = true ->
         expected_value (support (self w)) (nth a' (nth b (logits r) []) [])
         <= expected_value (support (self w))
              (nth (nth b (fwd_act r) 0%nat) (nth b (logits r) []) [])) /\
      (forall a', (a' < nth b (fwd_act r) 0)%nat ->
         nth a' (nth b m []) false = true ->
         expected_value (support (self w)) (nth a' (nth b (logits r) []) [])
         < expected_value (support (self w))
             (nth (nth b (fwd_act r) 0%nat) (nth b (logits r) []) [])).
Proof.
  intros Hmask Hm Hsup Hn Hshape.
  destruct (forward_run Params Array Hidden InfoT net draws w batch state mk ik
              bsz nact _ _ (surjective_pairing _) Hn Hshape)
    as (acts & w' & Hrun & _ & Hlen & Hvalid & _).
  { intros m' Hm'. rewrite Hmask in Hm'. inversion Hm'; subst. exact Hm. }
  pose proof (forward_suppressed_no_draw _ _ _ _ _ _ _ Hrun Hsup) as ->.
  eexists. split; [exact Hrun|].
  destruct (forward_inv _ _ _ _ _ _ _ Hrun)
    as (q & a0 & a1 & Hq & _ & Hg & Hx).
  rewrite (suppressed_test _ Hsup) in Hx. destruct Hx as [Hact _].
  simpl in Hq, Hact |- *. subst acts.
  rewrite (expectation_ok _ _ bsz nact Hshape) in Hq.
  inversion Hq as [Hqeq]. clear Hq.
  rewrite Hmask in Hg.
  intros b Hb Hex.
  assert (Hbq : (b < length q)%nat).
  { rewrite <- Hqeq, length_map. destruct Hshape as [-> _]. exact Hb. }
  destruct (mask_greedy_best m q a0 a1 b Hg Hbq Hex) as (H1 & H2 & H3).
  assert (Hev : forall a, (a < nact)%nat ->
            nth a (nth b q []) 0
            = expected_value (support (self w))
                (nth a (nth b (fst (net (getattr_model (self w) mk)
                   (obs_of (batch_get batch ik)) state (info batch))) []) [])).
  { intros a Ha. rewrite <- Hqeq.
    rewrite (nth_map_lt _ _ b []) by (destruct Hshape as [-> _]; exact Hb).
    apply nth_map_lt.
    destruct (shape3_nth _ _ _ _ b Hshape Hb) as [-> _]. exact Ha. }
  assert (Hmlen : length (nth b m []) = nact)
    by (apply (shape2_nth bsz nact m b Hm Hb)).
  assert (Hunm : forall a, nth a (nth b m []) false = true -> (a < nact)%nat).
  { intros a Ha. rewrite <- Hmlen.
    destruct (Nat.lt_ge_cases a (length (nth b m []))); [assumption|].
    rewrite nth_overflow in Ha by assumption. discriminate. }
  split; [exact H1|]. split.
  - intros a' Ha'. rewrite <- !Hev by (apply Hunm; assumption).
    apply H2. exact Ha'.
  - intros a' Hlt Ha'. rewrite <- !Hev by (apply Hunm; assumption).
    apply H3; assumption.
Qed.

Lemma explore_keeps (P : nat -> nat -> Prop) mask q :
  (forall i v a, random_choice mask i v = Ok a -> P i a) ->
  forall idx act (w : World) act' w',
    explore draws mask q idx act w = Ok (act', w') ->
    (forall b, (b < length act)%nat -> P b (nth b act 0%nat)) ->
    forall b, (b < length act)%nat -> P b (nth b act' 0%nat).
Proof.
  intros HP.
  induction idx as [|i rest IH]; intros act w act' w' H Hact; simpl in H.
  - unfold ret in H. inversion H; subst. exact Hact.
  - unfold bind, lift, ret, get_self, rand in H. cbv beta iota in H.
    destruct (Rltb (draws (rng w)) (eps (base (self w)))).
    + destruct (nth_res q i) as [qi|]; [|discriminate].
      cbv beta iota in H. rewrite rand_vec_exact in H. cbv beta iota in H.
      match type of H with
      | context [random_choice mask i ?v] =>
          destruct (random_choice mask i v) as [a|] eqn:Ea; [|discriminate]
      end.
      cbv beta iota in H.
      destruct (list_set act i a) as [act1|] eqn:Eset; [|discriminate].
      cbv beta iota in H.
      destruct (list_set_inv 0%nat _ _ _ _ Eset) as (Hi & Hl1 & Hn1 & Ho1).
      intros b Hb. rewrite <- Hl1 in Hb. revert b Hb.
      apply (IH act1 _ act' w' H).
      intros b Hb. destruct (Nat.eq_dec b i) as [->|Hne].
      * rewrite Hn1. apply (HP _ _ _ Ea).
      * rewrite Ho1 by exact Hne. apply Hact. lia.
    + apply (IH act _ act' w' H Hact).
Qed.

Lemma argmax_all_neginf e (l : list ereal) a :
  (forall k, nth k l NegInf = NegInf) ->
  argmax ereal_ltb e l = Ok a -> a = 0%nat.
Proof.
  intros Hall H.
  destruct (argmax_first_max ereal ereal_ltb ereal_ltb_asym
              ereal_ltb_ge_trans NegInf _ _ a H) as (_ & _ & Hfirst).
  destruct a as [|a]; [reflexivity|].
  specialize (Hfirst 0%nat ltac:(lia)). rewrite !Hall in Hfirst.
  discriminate.
Qed.

Lemma fill_all_masked v mb :
  length v = length mb ->
  (forall a, nth a mb false = false) ->
  forall k, nth k (zipWith fill v mb) NegInf = NegInf.
Proof.
  intros Hlen Hall k.
  destruct (Nat.lt_ge_cases k (length v)) as [Hk|Hk].
  - rewrite (nth_zipWith fill v mb k 0 false NegInf Hk Hlen), Hall.
    reflexivity.
  - apply nth_overflow. rewrite zipWith_length by exact Hlen. exact Hk.
Qed.

(** X9. A sample whose mask leaves no action is not refused: [forward]
    returns action [0] for it (the [argmax] of a row of [-inf]), in the
    greedy branch and in the exploring branch alike. *)
Theorem forward_all_masked_returns_first (w : World) (batch : Batch)
    (state : option Hidden) (mk : ModelKey) (ik : InputKey) (bsz nact : nat)
    (m : list (list bool)) :
  mask_of (batch_get batch ik) = Some m ->
  shape2 bsz nact m ->
  (0 < nact)%nat ->
  shape3 bsz nact (length (support (self w)))
    (fst (net (getattr_model (self w) mk) (obs_of (batch_get batch ik)) state
              (info batch))) ->
  exists r w',
    forward net draws batch state mk ik w = Ok (r, w') /\
    forall b, (b < bsz)%nat ->
      (forall a, nth a (nth b m []) false = false) ->
      nth b (fwd_act r) 0%nat = 0%nat.
Proof.
  intros Hmask Hm Hn Hshape.
  destruct (forward_run Params Array Hidden InfoT net draws w batch state mk ik
              bsz nact _ _ (surjective_pairing _) Hn Hshape)
    as (acts & w' & Hrun & _ & Hlen & _ & _).
  { intros m' Hm'. rewrite Hmask in Hm'. inversion Hm'; subst. exact Hm. }
  eexists _, w'. split; [exact Hrun|].
  destruct (forward_inv _ _ _ _ _ _ _ Hrun)
    as (q & a0 & a1 & Hq & Ha0 & Hg & Hx).
  simpl in Hq, Hx |- *. rewrite Hmask in Hg, Hx.
  rewrite (expectation_ok _ _ bsz nact Hshape) in Hq.
  inversion Hq as [Hqeq]. clear Hq.
  assert (Hlq : length q = bsz)
    by (rewrite <- Hqeq, length_map; destruct Hshape as [-> _]; reflexivity).
  set (P := fun (b a : nat) =>
              (forall a', nth a' (nth b m []) false = false) -> a = 0%nat).
  assert (H1 : length a1 = bsz /\
               forall b, (b < length a1)%nat -> P b (nth b a1 0%nat)).
  { unfold mask_greedy in Hg.
    destruct (mask_fill2 q m) as [q_|] eqn:Eq; simpl in Hg; [|discriminate].
    unfold mask_fill2 in Eq.
    destruct (zip_strict_inv _ _ [] [] [] _ _ _ Eq) as (Hqm & Hlq_ & Hrows).
    destruct (rmapM_inv _ [] 0%nat _ _ Hg) as [Hl Hnth].
    split; [lia|]. intros b Hb Hall.
    specialize (Hnth b ltac:(lia)). specialize (Hrows b ltac:(lia)).
    destruct (mask_fill1_length _ _ _ Hrows) as [_ Hvm].
    rewrite (mask_fill1_ok _ _ Hvm) in Hrows. inversion Hrows as [Hrow].
    rewrite <- Hrow in Hnth.
    apply (argmax_all_neginf _ _ _ (fill_all_masked _ _ Hvm Hall) Hnth). }
  destruct H1 as [Hl1 HP1].
  assert (HPr : forall i v a, random_choice (Some m) i v = Ok a -> P i a).
  { intros i v a Ha Hall. unfold random_choice in Ha.
    destruct (nth_res m i) as [mi|] eqn:Emi; simpl in Ha; [|discriminate].
    destruct (nth_res_inv m i mi [] Emi) as [_ Hmi]. subst mi.
    destruct (mask_fill1 v (nth i m [])) as [q_|] eqn:Ef; simpl in Ha;
      [|discriminate].
    destruct (mask_fill1_length _ _ _ Ef) as [_ Hvm].
    rewrite (mask_fill1_ok _ _ Hvm) in Ef. inversion Ef; subst q_.
    apply (argmax_all_neginf _ _ _ (fill_all_masked _ _ Hvm Hall) Ha). }
  intros b Hb.
  destruct (negb (updating (base (self w)))
            && negb (isclose (eps (base (self w))) 0)).
  - apply (explore_keeps P (Some m) q HPr _ _ _ _ _ Hx HP1). lia.
  - destruct Hx as [-> _]. apply HP1. lia.
Qed.

(** X10. The random numbers [forward] draws: none when exploration is
    suppressed, mask or not; otherwise one per sample for the test against
    [eps], plus one per action for each sample that explores, so between
    [bsz] and [bsz * (1 + n_actions)]. *)
Theorem forward_draw_count (w : World) (batch : Batch)
    (state : option Hidden) (mk : ModelKey) (ik : InputKey) (bsz nact : nat) :
  (0 < nact)%nat ->
  shape3 bsz nact (length (support (self w)))
    (fst (net (getattr_model (self w) mk) (obs_of (batch_get batch ik)) state
              (info batch))) ->
  (forall m, mask_of (batch_get batch ik) = Some m -> shape2 bsz nact m) ->
  exists r w',
    forward net draws batch state mk ik w = Ok (r, w') /\
    (updating (base (self w)) = true
     \/ isclose (eps (base (self w))) 0 = true -> rng w' = rng w) /\
    (updating (base (self w)) = false ->
     isclose (eps (base (self w))) 0 = false ->
     (rng w + bsz <= rng w' <= rng w + bsz * (1 + nact))%nat).
Proof.
  intros Hn Hshape Hmask.
  destruct (forward_run Params Array Hidden InfoT net draws w batch state mk ik
              bsz nact _ _ (surjective_pairing _) Hn Hshape Hmask)
    as (acts & w' & Hrun & _ & _ & _ & _).
  eexists _, w'. split; [exact Hrun|]. split.
  - intros Hs. rewrite (forward_suppressed_no_draw _ _ _ _ _ _ _ Hrun Hs).
    reflexivity.
  - intros Hu Hc.
    destruct (forward_inv _ _ _ _ _ _ _ Hrun)
      as (q & a0 & a1 & Hq & _ & _ & Hx).
    rewrite Hu, Hc in Hx. simpl in Hq, Hx.
    rewrite (expectation_ok _ _ bsz nact Hshape) in Hq.
    inversion Hq as [Hqeq]. clear Hq.
    pose proof (expectation_shape _ _ bsz nact Hshape) as Hqs.
    rewrite Hqeq in Hqs.
    destruct (explore_post _ q nact _ _ _ _ _ Hx) as (_ & Hr & _).
    + intros i Hi. apply in_seq in Hi. pose proof (proj1 Hqs) as Hl.
      rewrite (shape2_nth bsz nact q i Hqs) by lia. lia.
    + rewrite length_seq in Hr. pose proof (proj1 Hqs) as Hl.
      rewrite Hl in Hr. exact Hr.
Qed.

(** When no number drawn falls below [eps], the loop changes nothing. *)
Lemma explore_all_above mask q :
  forall idx act (w : World),
    (forall k, Rltb (draws k) (eps (base (self w))) = false) ->
    explore draws mask q idx act w
    = Ok (act, {| self := self w; rng := rng w + length idx |}).
Proof.
  induction idx as [|i rest IH]; intros act w Hd; simpl.
  - unfold ret. rewrite Nat.add_0_r. destruct w. reflexivity.
  - unfold bind, lift, ret, get_self, rand. cbv beta iota.
    rewrite (Hd (rng w)). rewrite IH by exact Hd. simpl.
    repeat f_equal. lia.
Qed.

(** X11. In the exploring phase, when every number the generator yields is
    at least [eps], [forward] returns the greedy actions of lines 90-96
    unchanged, having drawn exactly one number per sample. *)
Theorem forward_explores_nothing_above_eps (w : World) (batch : Batch)
    (state : option Hidden) (mk : ModelKey) (ik : InputKey) (bsz nact : nat) :
  (0 < nact)%nat ->
  shape3 bsz nact (length (support (self w)))
    (fst (net (getattr_model (self w) mk) (obs_of (batch_get batch ik)) state
              (info batch))) ->
  (forall m, mask_of (batch_get batch ik) = Some m -> shape2 bsz nact m) ->
  updating (base (self w)) = false ->
  isclose (eps (base (self w))) 0 = false ->
  (forall k, eps (base (self w)) <= draws k) ->
  exists r w',
    forward net draws batch state mk ik w = Ok (r, w') /\
    greedy_actions (support (self w)) (mask_of (batch_get batch ik))
      (logits r) (fwd_act r) /\
    rng w' = (rng w + bsz)%nat.
Proof.
  intros Hn Hshape Hmask Hu Hc Hd.
  destruct (forward_run Params Array Hidden InfoT net draws w batch state mk ik
              bsz nact _ _ (surjective_pairing _) Hn Hshape Hmask)
    as (acts & w' & Hrun & _ & _ & _ & _).
  eexists _, w'. split; [exact Hrun|].
  destruct (forward_inv _ _ _ _ _ _ _ Hrun)
    as (q & a0 & a1 & Hq & Ha0 & Hg & Hx).
  rewrite Hu, Hc in Hx. simpl in Hq, Hx |- *.
  rewrite explore_all_above in Hx.
  - inversion Hx; subst. simpl. split.
    + exists q, a0. repeat split; assumption.
    + rewrite length_seq.
      rewrite (expectation_ok _ _ bsz nact Hshape) in Hq.
      inversion Hq. rewrite length_map. destruct Hshape as [-> _].
      reflexivity.
  - intros k. unfold Rltb. destruct Rlt_dec; [|reflexivity].
    specialize (Hd k). lra.
Qed.

(** X12. When the network's distributions do not have as many atoms as
    the support (and neither size is one, which broadcasting would
    stretch), [forward] raises the tensor library's [RuntimeError] and
    selects nothing. *)
Theorem forward_atoms_mismatch_raises (w : World) (batch : Batch)
    (state : option Hidden) (mk : ModelKey) (ik : InputKey) (b a : nat) :
  (b < length (fst (net (getattr_model (self w) mk)
                        (obs_of (batch_get batch ik)) state (info batch))))%nat ->
  (a < length (nth b (fst (net (getattr_model (self w) mk)
                        (obs_of (batch_get batch ik)) state (info batch)))
                   []))%nat ->
  length (nth a (nth b (fst (net (getattr_model (self w) mk)
                        (obs_of (batch_get batch ik)) state (info batch)))
                   []) [])
  <> length (support (self w)) ->
  length (nth a (nth b (fst (net (getattr_model (self w) mk)
                        (obs_of (batch_get batch ik)) state (info batch)))
                   []) [])
  <> 1%nat ->
  length (support (self w)) <> 1%nat ->
  forward net draws batch state mk ik w = Err RuntimeError.
Proof.
  unfold forward, bind, lift, ret, get_self. cbv beta iota.
  destruct (net (getattr_model (self w) mk) (obs_of (batch_get batch ik))
                state (info batch)) as [dist h]. simpl fst.
  intros Hb Ha H1 H2 H3.
  destruct (expectation (support (self w)) dist) as [q|e'] eqn:Eq.
  - destruct (expectation_row_sizes _ _ _ b a Eq Hb Ha) as [H|[H|H]];
      contradiction.
  - rewrite (expectation_err_kind _ _ _ Eq). reflexivity.
Qed.

(** X13. When the mask does not have one flag per sample and action,
    [forward] raises [IndexError] (the boolean mask does not fit the array
    it indexes), whatever the phase. *)
Theorem forward_bad_mask_raises (w : World) (batch : Batch)
    (state : option Hidden) (mk : ModelKey) (ik : InputKey) (bsz nact : nat)
    (m : list (list bool)) :
  mask_of (batch_get batch ik) = Some m ->
  ~ shape2 bsz nact m ->
  (0 < nact)%nat ->
  shape3 bsz nact (length (support (self w)))
    (fst (net (getattr_model (self w) mk) (obs_of (batch_get batch ik)) state
              (info batch))) ->
  forward net draws batch state mk ik w = Err IndexError.
Proof.
  intros Hmask Hbad Hn Hshape.
  unfold forward, bind, lift, ret, get_self. cbv beta iota.
  destruct (net (getattr_model (self w) mk) (obs_of (batch_get batch ik))
                state (info batch)) as [dist h]. simpl fst in Hshape.
  rewrite (expectation_ok _ _ bsz nact Hshape). cbv beta iota.
  pose proof (expectation_shape _ _ bsz nact Hshape) as Hq.
  destruct (greedy_ok Rltb RuntimeError bsz nact _ Hq Hn)
    as (act0 & Hact0 & _ & _).
  rewrite Hact0. cbv beta iota. rewrite Hmask. unfold mask_greedy.
  destruct (mask_fill2 (map (map (expected_value (support (self w)))) dist) m)
    as [q_|e'] eqn:Ef.
  - destruct (Hbad (mask_fill2_shape _ _ _ _ _ Hq Ef)).
  - rewrite (mask_fill2_err_kind _ _ _ Ef). reflexivity.
Qed.

(** When every number drawn falls below [eps], every sample explores:
    sample [b] takes the [argmax] of the scores drawn right after its own
    test number. *)
Lemma explore_all_below mask q nact :
  forall len s act (w : World) act' w',
    (forall k, Rltb (draws k) (eps (base (self w))) = true) ->
    (forall i, (s <= i < s + len)%nat -> length (nth i q []) = nact) ->
    explore draws mask q (seq s len) act w = Ok (act', w') ->
    rng w' = (rng w + len * (1 + nact))%nat /\
    (forall b, (s <= b < s + len)%nat ->
       random_choice mask b
         (map (fun k => draws (rng w + (b - s) * (1 + nact) + 1 + k))
              (seq 0 nact))
       = Ok (nth b act' 0%nat)) /\
    (forall b, (b < s)%nat -> nth b act' 0%nat = nth b act 0%nat).
Proof.
  induction len as [|len IH]; intros s act w act' w' Hd Hq H; simpl in H.
  - unfold ret in H. inversion H; subst.
    split; [lia|]. split; [intros b Hb; lia | reflexivity].
  - unfold bind, lift, ret, get_self, rand in H. cbv beta iota in H.
    rewrite (Hd (rng w)) in H.
    destruct (nth_res q s) as [qi|] eqn:Eqi; [|discriminate].
    cbv beta iota in H. rewrite rand_vec_exact in H. cbv beta iota in H.
    destruct (nth_res_inv q s qi [] Eqi) as [_ Hqi].
    assert (Hlen : length qi = nact) by (rewrite <- Hqi; apply Hq; lia).
    rewrite Hlen in H. simpl rng in H. simpl self in H.
    destruct (random_choice mask s
                (map (fun k => draws (S (rng w) + k)) (seq 0 nact)))
      as [a|] eqn:Ea; [|discriminate].
    cbv beta iota in H.
    destruct (list_set act s a) as [act1|] eqn:Eset; [|discriminate].
    cbv beta iota in H.
    destruct (list_set_inv 0%nat _ _ _ _ Eset) as (Hs & Hl1 & Hn1 & Ho1).
    apply IH in H; [|exact Hd | intros i Hi; apply Hq; lia].
    destruct H as (Hr & Hsel & Hkeep).
    simpl rng in Hr, Hsel.
    split; [lia|]. split.
    + intros b Hb. destruct (Nat.eq_dec b s) as [->|Hne].
      * rewrite Hkeep by lia. rewrite Hn1, <- Ea.
        f_equal. apply map_ext. intros k. f_equal. lia.
      * rewrite <- (Hsel b ltac:(lia)).
        f_equal. apply map_ext. intros k. f_equal.
        replace (b - s)%nat with (S (b - S s)) by lia. simpl. lia.
    + intros b Hb. rewrite Hkeep by lia. apply Ho1. lia.
Qed.

(** X14. In the exploring phase, when every number the generator yields is
    below [eps] (as with [eps >= 1]), every action [forward] returns is the
    [argmax] of that sample's own random scores (masked, when there is a
    mask), drawn right after the sample's test number: the network's output
    plays no part in the choice, and [bsz * (1 + n_actions)] numbers are
    drawn. *)
Theorem forward_explores_everything_below_eps (w : World) (batch : Batch)
    (state : option Hidden) (mk : ModelKey) (ik : InputKey) (bsz nact : nat) :
  (0 < nact)%nat ->
  shape3 bsz nact (length (support (self w)))
    (fst (net (getattr_model (self w) mk) (obs_of (batch_get batch ik)) state
              (info batch))) ->
  (forall m, mask_of (batch_get batch ik) = Some m -> shape2 bsz nact m) ->
  updating (base (self w)) = false ->
  isclose (eps (base (self w))) 0 = false ->
  (forall k, draws k < eps (base (self w))) ->
  exists r w',
    forward net draws batch state mk ik w = Ok (r, w') /\
    rng w' = (rng w + bsz * (1 + nact))%nat /\
    forall b, (b < bsz)%nat ->
      random_choice (mask_of (batch_get batch ik)) b
        (map (fun k => draws (rng w + b * (1 + nact) + 1 + k)) (seq 0 nact))
      = Ok (nth b (fwd_act r) 0%nat).
Proof.
  intros Hn Hshape Hmask Hu Hc Hd.
  destruct (forward_run Params Array Hidden InfoT net draws w batch state mk ik
              bsz nact _ _ (surjective_pairing _) Hn Hshape Hmask)
    as (acts & w' & Hrun & _ & _ & _ & _).
  eexists _, w'. split; [exact Hrun|].
  destruct (forward_inv _ _ _ _ _ _ _ Hrun)
    as (q & a0 & a1 & Hq & _ & _ & Hx).
  rewrite Hu, Hc in Hx. simpl in Hq, Hx |- *.
  rewrite (expectation_ok _ _ bsz nact Hshape) in Hq.
  inversion Hq as [Hqeq]. clear Hq.
  pose proof (expectation_shape _ _ bsz nact Hshape) as Hqs.
  rewrite Hqeq in Hqs. pose proof (proj1 Hqs) as Hlq. rewrite Hlq in Hx.
  apply (explore_all_below _ q nact) in Hx.
  - destruct Hx as (Hr & Hsel & _).
    split; [exact Hr|]. intros b Hb.
    specialize (Hsel b ltac:(lia)). rewrite Nat.sub_0_r in Hsel. exact Hsel.
  - intros k. unfold Rltb. destruct Rlt_dec; [reflexivity|].
    specialize (Hd k). contradiction.
  - intros i Hi. apply (shape2_nth bsz nact q i Hqs). lia.
Qed.

End MoreForward.

(* ------------------------------------------------------------------ *)
(** ** The target distribution and the update *)

Lemma gather_err_kind dist a e' : gather dist a = Err e' -> e' = IndexError.
Proof.
  unfold gather. apply rmapM_err_kind. intros [k ak] e0 _ H. simpl in H.
  unfold nth_res in H.
  destruct (nth_error dist k) as [mat|]; simpl in H;
    [|inversion H; reflexivity].
  destruct (nth_error mat ak); [discriminate | inversion H; reflexivity].
Qed.

Lemma mul_broadcast_mismatch dz (sup : tensor1) (ts nd : tensor2) bsz n n' :
  shape2 bsz n' ts -> shape2 bsz n nd ->
  (0 < bsz)%nat -> sup <> [] ->
  n' <> n -> n' <> 1%nat -> n <> 1%nat ->
  bcast3 Rmult
    (map (fun row => map (fun z => map (proj_coef dz z) row) sup) ts)
    (unsqueeze1 nd) = Err RuntimeError.
Proof.
  intros Hts Hnd Hb Hsup H1 H2 H3.
  destruct (bcast3 Rmult _ (unsqueeze1 nd)) as [tt|e'] eqn:E;
    [|rewrite (bcast3_err_kind _ _ _ _ E); reflexivity].
  exfalso.
  destruct ts as [|t0 ts]; [destruct Hts as [Hl _]; simpl in Hl; lia|].
  destruct nd as [|nd0 nd]; [destruct Hnd as [Hl _]; simpl in Hl; lia|].
  destruct sup as [|z0 sup]; [congruence|].
  unfold unsqueeze1, bcast3 in E. cbn [map] in E.
  destruct (bcast_inv_head _ _ _ _ _ _ E) as [z Ez].
  unfold bcast2 in Ez.
  destruct (bcast_inv_head _ _ _ _ _ _ Ez) as [z' Ez'].
  unfold bcast1 in Ez'. apply bcast_inv_len in Ez'.
  rewrite length_map in Ez'.
  pose proof (shape2_nth bsz n' (t0 :: ts) 0 Hts Hb) as Ht0.
  pose proof (shape2_nth bsz n (nd0 :: nd) 0 Hnd Hb) as Hn0.
  simpl in Ht0, Hn0. lia.
Qed.

Section MoreLearn.

Variables Params Array Hidden InfoT : Type.
Variable net : Params -> Obs Array -> option Hidden -> InfoT -> tensor3 * Hidden.
Variable draws : nat -> R.
Variable load_state_dict : Params -> Params -> Params.
Variable optim_step :
  Params -> Batch Array InfoT -> tensor2 -> option tensor1 -> Params.

Local Abbreviation World := (World Params).
Local Abbreviation Batch := (Batch Array InfoT).

(** A run of [_target_dist] that ends normally has only run [forward]. *)
Lemma target_dist_terms_post (w : World) (batch : Batch) terms w' :
  target_dist_terms net draws batch w = Ok (terms, w') ->
  self w' = self w /\ (rng w <= rng w')%nat /\
  (updating (base (self w)) = true
   \/ isclose (eps (base (self w))) 0 = true -> w' = w).
Proof.
  unfold target_dist_terms, bind, get_self. cbv beta iota.
  destruct (_target (base (self w))).
  - destruct (forward net draws batch None K_model K_obs_next w)
      as [[r1 w1]|] eqn:E1; [|discriminate].
    destruct (forward net draws batch None K_model_old K_obs_next w1)
      as [[r2 w2]|] eqn:E2; [|discriminate].
    unfold ret, lift. cbv beta iota. simpl fst. simpl snd.
    destruct (gather (logits r2) (fwd_act r1)); [|discriminate].
    rewrite sub_broadcast.
    match goal with
    | |- match ?x with _ => _ end = _ -> _ => destruct x; [|discriminate]
    end.
    intros H. inversion H; subst; clear H.
    destruct (forward_frame _ _ _ _ _ _ _ _ _ _ _ _ _ E1) as (Hs1 & Hr1).
    destruct (forward_frame _ _ _ _ _ _ _ _ _ _ _ _ _ E2) as (Hs2 & Hr2).
    split; [congruence|]. split; [lia|].
    intros Hsup.
    pose proof (forward_suppressed_no_draw _ _ _ _ _ _ _ _ _ _ _ _ _ E1 Hsup).
    subst w1.
    apply (forward_suppressed_no_draw _ _ _ _ _ _ _ _ _ _ _ _ _ E2 Hsup).
  - destruct (forward net draws batch None K_model K_obs_next w)
      as [[r1 w1]|] eqn:E1; [|discriminate].
    unfold ret, lift. cbv beta iota. simpl fst. simpl snd.
    destruct (gather (logits r1) (fwd_act r1)); [|discriminate].
    rewrite sub_broadcast.
    match goal with
    | |- match ?x with _ => _ end = _ -> _ => destruct x; [|discriminate]
    end.
    intros H. inversion H; subst; clear H.
    destruct (forward_frame _ _ _ _ _ _ _ _ _ _ _ _ _ E1) as (Hs1 & Hr1).
    split; [exact Hs1|]. split; [exact Hr1|].
    intros Hsup.
    apply (forward_suppressed_no_draw _ _ _ _ _ _ _ _ _ _ _ _ _ E1 Hsup).
Qed.

Lemma target_dist_post (w : World) (batch : Batch) td w' :
  _target_dist net draws batch w = Ok (td, w') ->
  self w' = self w /\ (rng w <= rng w')%nat /\
  (updating (base (self w)) = true
   \/ isclose (eps (base (self w))) 0 = true -> w' = w).
Proof.
  unfold _target_dist, bind, ret.
  destruct (target_dist_terms net draws batch w) as [[terms w1]|] eqn:E;
    [|discriminate].
  intros H. inversion H; subst; clear H.
  apply (target_dist_terms_post _ _ _ _ E).
Qed.

Lemma maybe_sync_post (w w0 : World) :
  maybe_sync load_state_dict w = Ok (tt, w0) ->
  rng w0 = rng w /\
  model (base (self w0)) = model (base (self w)) /\
  model_old (base (self w0))
  = (if sync_due (self w)
     then load_state_dict (model_old (base (self w))) (model (base (self w)))
     else model_old (base (self w))) /\
  eps (base (self w0)) = eps (base (self w)) /\
  updating (base (self w0)) = updating (base (self w)) /\
  _target (base (self w0)) = _target (base (self w)) /\
  _freq (base (self w0)) = _freq (base (self w)) /\
  _cnt (base (self w0)) = _cnt (base (self w)) /\
  _num_atoms (self w0) = _num_atoms (self w) /\
  _v_min (self w0) = _v_min (self w) /\
  _v_max (self w0) = _v_max (self w) /\
  support (self w0) = support (self w) /\
  delta_z (self w0) = delta_z (self w).
Proof.
  unfold maybe_sync, sync_weight, set_base, sync_due, bind, lift, ret,
    get_self. cbv beta iota.
  destruct (_target (base (self w))) eqn:Et; simpl.
  - destruct (_freq (base (self w)) =? 0)%nat; [discriminate|].
    destruct (_cnt (base (self w)) mod _freq (base (self w)) =? 0)%nat;
      intros H; inversion H; subst; simpl;
      repeat split; try reflexivity; congruence.
  - intros H; inversion H; subst; repeat split; assumption.
Qed.

(** The steps of a run of [learn] that ends normally, and the world it
    leaves. *)
Lemma learn_inv (w : World) (batch : Batch) res w' :
  learn net draws load_state_dict optim_step batch w = Ok (res, w') ->
  exists w0 td w1 r w2 curr ce,
    maybe_sync load_state_dict w = Ok (tt, w0) /\
    _target_dist net draws batch w0 = Ok (td, w1) /\
    forward net draws (snd (pop_weight batch)) None K_model K_obs w1
    = Ok (r, w2) /\
    gather (logits r) (act batch) = Ok curr /\
    fst res = set_weight (snd (pop_weight batch)) ce /\
    rng w' = rng w2 /\
    model (base (self w'))
    = optim_step (model (base (self w2))) (snd (pop_weight batch)) td
        (weight batch) /\
    model_old (base (self w')) = model_old (base (self w2)) /\
    eps (base (self w')) = eps (base (self w2)) /\
    updating (base (self w')) = updating (base (self w2)) /\
    _target (base (self w')) = _target (base (self w2)) /\
    _freq (base (self w')) = _freq (base (self w2)) /\
    _cnt (base (self w')) = (_cnt (base (self w2)) + 1)%nat /\
    _num_atoms (self w') = _num_atoms (self w2) /\
    _v_min (self w') = _v_min (self w2) /\
    _v_max (self w') = _v_max (self w2) /\
    support (self w') = support (self w2) /\
    delta_z (self w') = delta_z (self w2).
Proof.
  unfold learn, bind.
  destruct (maybe_sync load_state_dict w) as [[[] w0]|] eqn:Es; [|discriminate].
  destruct (_target_dist net draws batch w0) as [[td w1]|] eqn:Et;
    [|discriminate].
  unfold pop_weight at 1. cbv beta iota.
  change {| obs := obs batch; obs_next := obs_next batch; act := act batch;
            returns := returns batch; weight := None; info := info batch |}
    with (snd (pop_weight batch)).
  destruct (forward net draws (snd (pop_weight batch)) None K_model K_obs w1)
    as [[r w2]|] eqn:Ef; [|discriminate].
  unfold lift, ret, get_self, set_base. cbv beta iota.
  change (act (snd (pop_weight batch))) with (act batch).
  destruct (gather (logits r) (act batch)) as [curr|] eqn:Eg; [|discriminate].
  match goal with
  | |- match match ?x with _ => _ end with _ => _ end = _ -> _ =>
      destruct x as [prod|]; [|discriminate]
  end.
  cbv beta iota.
  destruct (times_weight (map Ropp (map Rsum prod)) (weight batch))
    as [wce|]; [|discriminate].
  cbv beta iota zeta. intros H. inversion H; subst; clear H. simpl.
  exists w0, td, w1, r, w2, curr, (map Ropp (map Rsum prod)).
  repeat split; assumption.
Qed.

(** X15. When the returns of the batch do not have one entry per atom
    (nor a single one, which broadcasting would stretch), [_target_dist]
    raises the tensor library's [RuntimeError]. *)
Theorem target_dist_returns_mismatch_raises (w : World) (batch : Batch)
    (bsz nact n' : nat) :
  policy_inv (self w) ->
  well_shaped net (length (support (self w))) batch K_obs_next bsz nact ->
  (0 < bsz)%nat ->
  shape2 bsz n' (returns batch) ->
  n' <> length (support (self w)) -> n' <> 1%nat ->
  _target_dist net draws batch w = Err RuntimeError.
Proof.
  intros Hinv Hws Hb Hret H1 H2.
  pose proof (inv_atoms_ge_2 Params (self w) Hinv) as Hn2.
  destruct (forward_ws_run Params Array Hidden InfoT net draws w batch
              K_model K_obs_next bsz nact Hws)
    as (r1 & w1 & Hf1 & Hlog1 & Hs1 & Hl1 & Hlt1).
  assert (Hts : shape2 bsz n'
                  (map (map (clamp (_v_min (self w)) (_v_max (self w))))
                       (returns batch))).
  { apply (shape2_map _ bsz n'); [exact Hret|].
    intros r Hr. rewrite length_map. exact Hr. }
  assert (Hsup : support (self w) <> [])
    by (intros E; rewrite E in Hn2; simpl in Hn2; lia).
  unfold _target_dist, target_dist_terms, bind, lift, ret, get_self.
  cbv beta iota.
  destruct (_target (base (self w))).
  - assert (Hws1 : well_shaped net (length (support (self w1))) batch
                     K_obs_next bsz nact) by (rewrite Hs1; exact Hws).
    destruct (forward_ws_run Params Array Hidden InfoT net draws w1 batch
                K_model_old K_obs_next bsz nact Hws1)
      as (r2 & w2 & Hf2 & Hlog2 & Hs2 & Hl2 & Hlt2).
    destruct (gather_total (logits r2) (fwd_act r1) bsz nact
                (length (support (self w))))
      as (nd & Hg & Hnd);
      [rewrite Hlog2; apply Hws | exact Hl1 | exact Hlt1 |].
    rewrite Hf1. cbv beta iota. rewrite Hf2. cbv beta iota.
    simpl fst. simpl snd. rewrite Hg. cbv beta iota.
    rewrite sub_broadcast. cbv beta iota. rewrite coef_chain.
    rewrite (mul_broadcast_mismatch _ _ _ _ bsz _ n' Hts Hnd Hb Hsup H1 H2)
      by lia.
    reflexivity.
  - destruct (gather_total (logits r1) (fwd_act r1) bsz nact
                (length (support (self w))))
      as (nd & Hg & Hnd);
      [rewrite Hlog1; apply Hws | exact Hl1 | exact Hlt1 |].
    rewrite Hf1. cbv beta iota.
    simpl fst. simpl snd. rewrite Hg. cbv beta iota.
    rewrite sub_broadcast. cbv beta iota. rewrite coef_chain.
    rewrite (mul_broadcast_mismatch _ _ _ _ bsz _ n' Hts Hnd Hb Hsup H1 H2)
      by lia.
    reflexivity.
Qed.

(** X16. [learn] on a batch one of whose taken actions is not an action of
    the network (or that lists more actions than samples) raises
    [IndexError]: nothing is returned, no step is taken. *)
Theorem learn_bad_action_raises (w : World) (batch : Batch)
    (bsz nact b : nat) :
  (_target (base (self w)) = true -> _freq (base (self w)) <> 0%nat) ->
  target_ready net (self w) batch bsz nact ->
  well_shaped net (length (support (self w))) batch K_obs bsz nact ->
  (b < length (act batch))%nat ->
  (bsz <= b)%nat \/ (nact <= nth b (act batch) 0)%nat ->
  learn net draws load_state_dict optim_step batch w = Err IndexError.
Proof.
  intros Hfreq [Hnext Hret] Hobs Hb Hbad.
  destruct (maybe_sync_run Params load_state_dict w Hfreq)
    as (w0 & Hsync & _ & Hsup0 & _).
  set (n := length (support (self w))) in *.
  assert (Hn0 : length (support (self w0)) = n) by (rewrite Hsup0; reflexivity).
  destruct (target_dist_run Params Array Hidden InfoT net draws w0 batch
              bsz nact)
    as (nd & w1 & td & _ & _ & Hs1 & Htd & _ & _);
    [rewrite Hn0; exact Hnext | rewrite Hn0; exact Hret |].
  assert (Hn1 : length (support (self w1)) = n) by (rewrite Hs1; exact Hn0).
  destruct (forward_ws_run Params Array Hidden InfoT net draws w1
              (snd (pop_weight batch)) K_model K_obs bsz nact)
    as (r & w2 & Hfwd & Hlog & _);
    [rewrite Hn1; exact Hobs|].
  assert (Hdist : shape3 bsz nact n (logits r))
    by (rewrite Hlog; apply (proj1 (proj2 Hobs))).
  unfold learn, bind. rewrite Hsync. cbv beta iota. rewrite Htd.
  cbv beta iota. unfold pop_weight at 1. cbv beta iota.
  change {| obs := obs batch; obs_next := obs_next batch; act := act batch;
            returns := returns batch; weight := None; info := info batch |}
    with (snd (pop_weight batch)).
  rewrite Hfwd. cbv beta iota. unfold lift.
  change (act (snd (pop_weight batch))) with (act batch).
  destruct (gather (logits r) (act batch)) as [curr|e'] eqn:Eg.
  - exfalso. destruct (gather_inv _ _ _ Eg) as [_ Hn].
    destruct (Hn b Hb) as (Hb1 & Hb2 & _).
    pose proof (proj1 Hdist) as Hl. rewrite Hl in Hb1.
    destruct Hbad as [Hbad|Hbad]; [lia|].
    destruct (shape3_nth bsz nact n (logits r) b Hdist Hb1) as [Hm _].
    rewrite Hm in Hb2. lia.
  - rewrite (gather_err_kind _ _ _ Eg). reflexivity.
Qed.

(** A run of [learn] on a batch it is ready for, with the world it
    leaves. *)
Lemma learn_full_run (w : World) (batch : Batch) (bsz nact : nat) :
  learn_ready net (self w) batch bsz nact ->
  exists w0 td w1 ce loss w',
    maybe_sync load_state_dict w = Ok (tt, w0) /\
    _target_dist net draws batch w0 = Ok (td, w1) /\
    learn net draws load_state_dict optim_step batch w
    = Ok ((set_weight (snd (pop_weight batch)) ce, loss), w') /\
    length ce = bsz /\
    model_old (base (self w'))
    = (if sync_due (self w)
       then load_state_dict (model_old (base (self w)))
                            (model (base (self w)))
       else model_old (base (self w))) /\
    model (base (self w'))
    = optim_step (model (base (self w))) (snd (pop_weight batch)) td
        (weight batch) /\
    eps (base (self w')) = eps (base (self w)) /\
    updating (base (self w')) = updating (base (self w)) /\
    _target (base (self w')) = _target (base (self w)) /\
    _freq (base (self w')) = _freq (base (self w)) /\
    support (self w') = support (self w).
Proof.
  intros Hready.
  destruct (learn_run Params Array Hidden InfoT net draws load_state_dict
              optim_step w batch bsz nact Hready)
    as (w0 & td & w1 & r & w2 & curr & ce & loss & w' & Hsync & Htd & Hfwd
        & _ & _ & _ & Hcelen & _ & Hlearn & _ & _ & Hsup & _).
  destruct (learn_inv _ _ _ _ Hlearn)
    as (w0' & td' & w1' & r' & w2' & curr' & ce' & Hsync' & Htd' & Hfwd'
        & _ & _ & _ & Hm & Hmo & He & Hu & Ht & Hf & _).
  rewrite Hsync in Hsync'. inversion Hsync'; subst w0'.
  rewrite Htd in Htd'. inversion Htd'; subst td' w1'.
  rewrite Hfwd in Hfwd'. inversion Hfwd'; subst r' w2'.
  destruct (maybe_sync_post _ _ Hsync)
    as (_ & Sm & Smo & Se & Su & St & Sf & _).
  destruct (target_dist_post _ _ _ _ Htd) as (Hs1 & _).
  destruct (forward_frame _ _ _ _ _ _ _ _ _ _ _ _ _ Hfwd) as (Hs2 & _).
  rewrite Hs2, Hs1 in Hm, Hmo, He, Hu, Ht, Hf.
  exists w0, td, w1, ce, loss, w'.
  split; [exact Hsync|]. split; [exact Htd|]. split; [exact Hlearn|].
  split; [exact Hcelen|]. repeat split; congruence.
Qed.

(** X17. What [learn] does to the two networks and to the rest of the
    policy: the target network is overwritten by the copy of the online
    parameters exactly when a target network is used and [_cnt] is a
    multiple of [_freq], and is untouched otherwise; the online parameters
    are those of the optimiser step for the target distribution [learn]
    computed; [eps], [updating], [_target] and [_freq] are unchanged. *)
Theorem learn_updates_networks (w : World) (batch : Batch) (bsz nact : nat) :
  learn_ready net (self w) batch bsz nact ->
  exists w0 td w1 res w',
    maybe_sync load_state_dict w = Ok (tt, w0) /\
    _target_dist net draws batch w0 = Ok (td, w1) /\
    learn net draws load_state_dict optim_step batch w = Ok (res, w') /\
    model_old (base (self w'))
    = (if sync_due (self w)
       then load_state_dict (model_old (base (self w)))
                            (model (base (self w)))
       else model_old (base (self w))) /\
    model (base (self w'))
    = optim_step (model (base (self w))) (snd (pop_weight batch)) td
        (weight batch) /\
    eps (base (self w')) = eps (base (self w)) /\
    updating (base (self w')) = updating (base (self w)) /\
    _target (base (self w')) = _target (base (self w)) /\
    _freq (base (self w')) = _freq (base (self w)).
Proof.
  intros Hready.
  destruct (learn_full_run w batch bsz nact Hready)
    as (w0 & td & w1 & ce & loss & w' & Hsync & Htd & Hlearn & _ & Hmo & Hm
        & He & Hu & Ht & Hf & _).
  exists w0, td, w1, (set_weight (snd (pop_weight batch)) ce, loss), w'.
  repeat (split; [assumption|]). assumption.
Qed.

(** X18. With exploration suppressed (as during an update, where
    [updating] is set), [learn] draws no random number: target actions and
    loss do not depend on the generator. *)
Theorem learn_draws_nothing_when_updating (w : World) (batch : Batch)
    (bsz nact : nat) :
  learn_ready net (self w) batch bsz nact ->
  updating (base (self w)) = true \/ isclose (eps (base (self w))) 0 = true ->
  exists res w',
    learn net draws load_state_dict optim_step batch w = Ok (res, w') /\
    rng w' = rng w.
Proof.
  intros Hready Hsup.
  destruct (learn_run Params Array Hidden InfoT net draws load_state_dict
              optim_step w batch bsz nact Hready)
    as (w0 & td & w1 & r & w2 & curr & ce & loss & w' & Hsync & Htd & Hfwd
        & _ & _ & _ & _ & _ & Hlearn & _).
  destruct (learn_inv _ _ _ _ Hlearn)
    as (w0' & td' & w1' & r' & w2' & curr' & ce' & Hsync' & Htd' & Hfwd'
        & _ & _ & Hrng & _).
  rewrite Hsync in Hsync'. inversion Hsync'; subst w0'.
  rewrite Htd in Htd'. inversion Htd'; subst td' w1'.
  rewrite Hfwd in Hfwd'. inversion Hfwd'; subst r' w2'.
  destruct (maybe_sync_post _ _ Hsync)
    as (Hr0 & _ & _ & Se & Su & _).
  assert (Hsup0 : updating (base (self w0)) = true
                  \/ isclose (eps (base (self w0))) 0 = true)
    by (rewrite Se, Su; exact Hsup).
  destruct (target_dist_post _ _ _ _ Htd) as (_ & _ & Hno).
  specialize (Hno Hsup0). subst w1.
  pose proof (forward_suppressed_no_draw _ _ _ _ _ _ _ _ _ _ _ _ _
                Hfwd Hsup0). subst w2.
  eexists _, w'. split; [exact Hlearn|]. congruence.
Qed.

(** X19. [learn] can be called again on what it leaves: the configuration
    the constructor established still holds of the policy, and the policy
    and the batch [learn] returns (with its new [weight]) meet again what
    [learn] needs. *)
Theorem learn_keeps_ready (w : World) (batch : Batch) (bsz nact : nat) :
  policy_inv (self w) ->
  learn_ready net (self w) batch bsz nact ->
  exists batch' loss w',
    learn net draws load_state_dict optim_step batch w
    = Ok ((batch', loss), w') /\
    policy_inv (self w') /\
    learn_ready net (self w') batch' bsz nact.
Proof.
  intros Hinv Hready.
  destruct (learn_full_run w batch bsz nact Hready)
    as (w0 & td & w1 & ce & loss & w' & _ & _ & Hlearn & Hcelen & _ & _
        & _ & _ & Ht & Hf & Hsup).
  exists (set_weight (snd (pop_weight batch)) ce), loss, w'.
  split; [exact Hlearn|].
  split;
    [exact (learn_preserves_inv Params Array Hidden InfoT net draws
              load_state_dict optim_step w batch bsz nact _ _ Hinv Hready
              Hlearn)|].
  destruct Hready as (Hb & Hfreq & (Hnext & Hret) & Hobs & Hact & Hlt & _).
  unfold learn_ready, target_ready. rewrite Hsup, Ht, Hf.
  split; [exact Hb|]. split; [exact Hfreq|].
  split; [split; [exact Hnext | exact Hret]|].
  split; [exact Hobs|]. split; [exact Hact|]. split; [exact Hlt|].
  intros wv E. simpl in E. inversion E; subst. exact Hcelen.
Qed.


End MoreLearn.

(* ------------------------------------------------------------------ *)
(** ** The further properties at concrete policies and batches *)

Lemma ex_target_ready b batch :
  mask_of (obs_next batch) = None ->
  shape2 1 2 (returns batch) ->
  target_ready ex_net (ex_policy_of b) batch 1 2.
Proof.
  intros Hm Hr. split; [|exact Hr].
  apply ex_well_shaped. simpl. rewrite Hm. discriminate.
Qed.

Example target_dist_between_atoms :
  _target_dist ex_net ex_draws ex_batch_mid ex_world
  = Ok ([[3/8; 5/8]], ex_world).
Proof.
  unfold _target_dist, target_dist_terms, bind, get_self.
  change (_target (base (self ex_world))) with false. cbv beta iota.
  change (forward ex_net ex_draws ex_batch_mid None K_model K_obs_next ex_world)
    with (forward ex_net ex_draws ex_batch None K_model K_obs_next ex_world).
  rewrite forward_next_greedy. unfold ret, lift. simpl.
  replace ((1 - 0) / 1) with 1 by lra.
  replace (clamp 0 1 (1 / 4)) with (1/4) by (symmetry; apply clamp_id; lra).
  replace (clamp 0 1 3) with 1 by (symmetry; apply clamp_above; lra).
  replace (1 / 4 - (0 + 0 * 1)) with (1/4) by lra.
  replace (1 - (0 + 0 * 1)) with 1 by lra.
  replace (1 / 4 - (0 + 1 * 1)) with (Ropp (3/4)) by lra.
  replace (1 - (0 + 1 * 1)) with 0 by lra.
  rewrite Rabs_Ropp, Rabs_R0, Rabs_R1, !Rabs_pos_eq by lra.
  replace (1 - 1 / 4 / 1) with (3/4) by lra.
  replace (1 - 1 / 1) with 0 by lra.
  replace (1 - 3 / 4 / 1) with (1/4) by lra.
  replace (1 - 0 / 1) with 1 by lra.
  rewrite (clamp_id 0 1 (3/4)), (clamp_id 0 1 (1/4)), (clamp_id 0 1 0),
    (clamp_id 0 1 1) by lra.
  match goal with
  | |- Ok ([[?a; ?b]], _) = _ =>
      replace a with (3/8) by lra; replace b with (5/8) by lra
  end.
  reflexivity.
Qed.

Lemma isclose_far x : 1e-8 < x -> isclose x 0 = false.
Proof.
  intros Hx. destruct (isclose x 0) eqn:E; [|reflexivity].
  apply isclose_zero in E. rewrite Rabs_pos_eq in E by lra. lra.
Qed.





Lemma forward_returns_valid_actions_witness :
  self {| self := self ex_world_explore; rng := 3 |} = self ex_world_explore /\
  (rng ex_world_explore <= 3)%nat /\
  ex_dist
  = fst (ex_net (getattr_model (self ex_world_explore) K_model)
           (obs_of (batch_get ex_batch_masked K_obs)) None
           (info ex_batch_masked)) /\
  tt
  = snd (ex_net (getattr_model (self ex_world_explore) K_model)
           (obs_of (batch_get ex_batch_masked K_obs)) None
           (info ex_batch_masked)) /\
  length [1%nat] = length ex_dist /\
  forall b, (b < length ex_dist)%nat ->
    (nth b [1%nat] 0 < length (nth b ex_dist []))%nat.
Proof.
  apply (forward_returns_valid_actions unit unit unit unit ex_net ex_draws
           ex_world_explore ex_batch_masked None K_model K_obs
           {| logits := ex_dist; fwd_act := [1%nat]; fwd_state := tt |}
           {| self := self ex_world_explore; rng := 3 |}).
  exact forward_masked_exploring.
Defined.

Lemma forward_masked_greedy_is_best_witness :
  exists r,
    forward ex_net ex_draws ex_batch_masked None K_model K_obs ex_world
    = Ok (r, ex_world) /\
    forall b, (b < 1)%nat ->
      (exists a, nth a (nth b ex_mask []) false = true) ->
      nth (nth b (fwd_act r) 0%nat) (nth b ex_mask []) false = true /\
      (forall a', nth a' (nth b ex_mask []) false = true ->
         expected_value (support (self ex_world))
           (nth a' (nth b (logits r) []) [])
         <= expected_value (support (self ex_world))
              (nth (nth b (fwd_act r) 0%nat) (nth b (logits r) []) [])) /\
      (forall a', (a' < nth b (fwd_act r) 0)%nat ->
         nth a' (nth b ex_mask []) false = true ->
         expected_value (support (self ex_world))
           (nth a' (nth b (logits r) []) [])
         < expected_value (support (self ex_world))
             (nth (nth b (fwd_act r) 0%nat) (nth b (logits r) []) [])).
Proof.
  apply (forward_masked_greedy_is_best unit unit unit unit ex_net ex_draws
           ex_world ex_batch_masked None K_model K_obs 1 2 ex_mask).
  - reflexivity.
  - repeat constructor.
  - left. reflexivity.
  - lia.
  - repeat constructor.
Defined.

Lemma forward_all_masked_returns_first_witness :
  exists r w',
    forward ex_net ex_draws ex_batch_all_masked None K_model K_obs
      ex_world_explore = Ok (r, w') /\
    forall b, (b < 1)%nat ->
      (forall a, nth a (nth b [[false; false]] []) false = false) ->
      nth b (fwd_act r) 0%nat = 0%nat.
Proof.
  apply (forward_all_masked_returns_first unit unit unit unit ex_net ex_draws
           ex_world_explore ex_batch_all_masked None K_model K_obs 1 2
           [[false; false]]).
  - reflexivity.
  - repeat constructor.
  - lia.
  - repeat constructor.
Defined.

Lemma forward_draw_count_witness :
  exists r w',
    forward ex_net ex_draws ex_batch_masked None K_model K_obs
      ex_world_explore = Ok (r, w') /\
    (updating (base (self ex_world_explore)) = true
     \/ isclose (eps (base (self ex_world_explore))) 0 = true ->
     rng w' = rng ex_world_explore) /\
    (updating (base (self ex_world_explore)) = false ->
     isclose (eps (base (self ex_world_explore))) 0 = false ->
     (rng ex_world_explore + 1 <= rng w'
      <= rng ex_world_explore + 1 * (1 + 2))%nat).
Proof.
  apply (forward_draw_count unit unit unit unit ex_net ex_draws
           ex_world_explore ex_batch_masked None K_model K_obs 1 2).
  - lia.
  - repeat constructor.
  - intros m E. inversion E. repeat constructor.
Defined.

Lemma forward_explores_nothing_above_eps_witness :
  exists r w',
    forward ex_net ex_draws ex_batch_masked None K_model K_obs ex_world_timid
    = Ok (r, w') /\
    greedy_actions (support (self ex_world_timid))
      (mask_of (batch_get ex_batch_masked K_obs)) (logits r) (fwd_act r) /\
    rng w' = (rng ex_world_timid + 1)%nat.
Proof.
  apply (forward_explores_nothing_above_eps unit unit unit unit ex_net
           ex_draws ex_world_timid ex_batch_masked None K_model K_obs 1 2).
  - lia.
  - repeat constructor.
  - intros m E. inversion E. repeat constructor.
  - reflexivity.
  - apply isclose_far. simpl. lra.
  - intros k. unfold ex_draws. simpl. lra.
Defined.

Lemma forward_explores_everything_below_eps_witness :
  exists r w',
    forward ex_net ex_draws ex_batch_masked None K_model K_obs
      ex_world_explore = Ok (r, w') /\
    rng w' = (rng ex_world_explore + 1 * (1 + 2))%nat /\
    forall b, (b < 1)%nat ->
      random_choice (mask_of (batch_get ex_batch_masked K_obs)) b
        (map (fun k => ex_draws (rng ex_world_explore + b * (1 + 2) + 1 + k))
             (seq 0 2))
      = Ok (nth b (fwd_act r) 0%nat).
Proof.
  apply (forward_explores_everything_below_eps unit unit unit unit ex_net
           ex_draws ex_world_explore ex_batch_masked None K_model K_obs 1 2).
  - lia.
  - repeat constructor.
  - intros m E. inversion E. repeat constructor.
  - reflexivity.
  - apply isclose_far. simpl. lra.
  - intros k. unfold ex_draws. simpl. lra.
Defined.

Lemma forward_atoms_mismatch_raises_witness :
  forward ex_net_wide ex_draws ex_batch None K_model K_obs ex_world
  = Err RuntimeError.
Proof.
  apply (forward_atoms_mismatch_raises unit unit unit unit ex_net_wide
           ex_draws ex_world ex_batch None K_model K_obs 0 0);
    simpl; lia.
Defined.

Lemma forward_bad_mask_raises_witness :
  forward ex_net ex_draws ex_batch_bad_mask None K_model K_obs ex_world
  = Err IndexError.
Proof.
  apply (forward_bad_mask_raises unit unit unit unit ex_net ex_draws
           ex_world ex_batch_bad_mask None K_model K_obs 1 2 [[true]]).
  - reflexivity.
  - intros [_ H]. inversion H as [|x l Hx Hl]. simpl in Hx. lia.
  - lia.
  - repeat constructor.
Defined.

Lemma target_dist_returns_mismatch_raises_witness :
  _target_dist ex_net ex_draws ex_batch_wide ex_world = Err RuntimeError.
Proof.
  apply (target_dist_returns_mismatch_raises unit unit unit unit ex_net
           ex_draws ex_world ex_batch_wide 1 2 3).
  - unfold policy_inv. simpl. repeat split; try reflexivity; try lia; lra.
  - split; [lia|]. split; [intros theta; repeat constructor|].
    intros m E. discriminate.
  - lia.
  - repeat constructor.
  - simpl. lia.
  - lia.
Defined.

Lemma learn_bad_action_raises_witness :
  learn ex_net ex_draws ex_load ex_optim ex_batch_bad_act ex_world
  = Err IndexError.
Proof.
  apply (learn_bad_action_raises unit unit unit unit ex_net ex_draws ex_load
           ex_optim ex_world ex_batch_bad_act 1 2 0).
  - discriminate.
  - split.
    + split; [lia|]. split; [intros theta; repeat constructor|].
      intros m E. discriminate.
    + repeat constructor.
  - split; [lia|]. split; [intros theta; repeat constructor|].
    intros m E. discriminate.
  - simpl. lia.
  - right. simpl. lia.
Defined.

Lemma learn_updates_networks_witness :
  exists w0 td w1 res w',
    maybe_sync ex_load ex_world_target = Ok (tt, w0) /\
    _target_dist ex_net ex_draws ex_batch w0 = Ok (td, w1) /\
    learn ex_net ex_draws ex_load ex_optim ex_batch ex_world_target
    = Ok (res, w') /\
    model_old (base (self w'))
    = (if sync_due (self ex_world_target)
       then ex_load (model_old (base (self ex_world_target)))
                    (model (base (self ex_world_target)))
       else model_old (base (self ex_world_target))) /\
    model (base (self w'))
    = ex_optim (model (base (self ex_world_target)))
        (snd (pop_weight ex_batch)) td (weight ex_batch) /\
    eps (base (self w')) = eps (base (self ex_world_target)) /\
    updating (base (self w')) = updating (base (self ex_world_target)) /\
    _target (base (self w')) = _target (base (self ex_world_target)) /\
    _freq (base (self w')) = _freq (base (self ex_world_target)).
Proof.
  apply (learn_updates_networks unit unit unit unit ex_net ex_draws ex_load
           ex_optim ex_world_target ex_batch 1 2).
  split; [lia|]. split; [intros _; simpl; lia|].
  split; [split|split; [|split; [|split]]].
  - split; [lia|]. split; [intros theta; repeat constructor|].
    intros m E. discriminate.
  - repeat constructor.
  - split; [lia|]. split; [intros theta; repeat constructor|].
    intros m E. discriminate.
  - reflexivity.
  - intros [|b] Hb; simpl; lia.
  - intros wv E. inversion E. reflexivity.
Defined.

Lemma learn_draws_nothing_when_updating_witness :
  exists res w',
    learn ex_net ex_draws ex_load ex_optim ex_batch ex_world_target
    = Ok (res, w') /\
    rng w' = rng ex_world_target.
Proof.
  apply (learn_draws_nothing_when_updating unit unit unit unit ex_net ex_draws
           ex_load ex_optim ex_world_target ex_batch 1 2).
  - split; [lia|]. split; [intros _; simpl; lia|].
    split; [split|split; [|split; [|split]]].
    + split; [lia|]. split; [intros theta; repeat constructor|].
      intros m E. discriminate.
    + repeat constructor.
    + split; [lia|]. split; [intros theta; repeat constructor|].
      intros m E. discriminate.
    + reflexivity.
    + intros [|b] Hb; simpl; lia.
    + intros wv E. inversion E. reflexivity.
  - left. reflexivity.
Defined.

Lemma learn_keeps_ready_witness :
  exists batch' loss w',
    learn ex_net ex_draws ex_load ex_optim ex_batch ex_world_target
    = Ok ((batch', loss), w') /\
    policy_inv (self w') /\
    learn_ready ex_net (self w') batch' 1 2.
Proof.
  apply (learn_keeps_ready unit unit unit unit ex_net ex_draws ex_load
           ex_optim ex_world_target ex_batch 1 2).
  - unfold policy_inv. simpl. repeat split; try reflexivity; try lia; lra.
  - split; [lia|]. split; [intros _; simpl; lia|].
    split; [split|split; [|split; [|split]]].
    + split; [lia|]. split; [intros theta; repeat constructor|].
      intros m E. discriminate.
    + repeat constructor.
    + split; [lia|]. split; [intros theta; repeat constructor|].
      intros m E. discriminate.
    + reflexivity.
    + intros [|b] Hb; simpl; lia.
    + intros wv E. inversion E. reflexivity.
Defined.
